(** * sleep.ts and JobQueue: a model of the cancellable delay and of the
      abortable job queue, and the properties of their specification.

    The program is asynchronous JavaScript.  It is embedded as explicit
    state passing over a small runtime (virtual clock, armed timers, abort
    signals, promises); every block of code that runs between two [await]s
    is one function on the state, and the places where the program is
    suspended (an armed timer, a promise somebody awaits) are data of the
    state that a later step resumes.

    What the environment does is a label of the step: the client calls the
    public methods, a timer elapses, a suspended loop or closure is
    resumed, a processor promise is settled.  The properties are proved
    for every sequence of such steps; the timed runs follow the host's
    order (ready continuations first, then timers by due time).

    Taken from outside the code: [maxConcurrent] and [intervalMs] are
    integers; event listeners and job processors do not call the queue's
    own methods from inside the call that the queue makes to them. *)

From stdpp Require Import base gmap sets list strings pretty sorting.
From Stdlib Require Import ZArith Lia.

Open Scope string_scope.
Open Scope list_scope.
Open Scope nat_scope.

(** ** Runtime: timers, abort signals and the promises made by [sleep] *)

(** [new Error(message)]. *)
Record Error := mkError { message : string }.

(** State of the promise returned by one call of [sleep]. *)
Inductive SleepState :=
  | SleepPending
  | SleepResolved
  | SleepRejected (e : Error).

#[global] Instance Error_eq_dec : EqDecision Error.
Proof. solve_decision. Defined.

#[global] Instance SleepState_eq_dec : EqDecision SleepState.
Proof. solve_decision. Defined.

(** A timer armed by [setTimeout(() => resolve(), ms)] inside [sleep]: the
    callback is the closure over the [resolve] of promise [timer_resolves]. *)
Record Timer := mkTimer {
  timer_id : nat;
  timer_due : Z;
  timer_resolves : nat
}.

(** An [AbortSignal]: its [aborted] flag and its "abort" listeners.  The only
    listeners the program registers are the once-listeners of [sleep], each
    a closure over [(timeoutId, reject)]; they are kept as the pair
    (timer id, promise). *)
Record AbortSignal := mkSignal {
  aborted : bool;
  abort_listeners : list (nat * nat)
}.

Record Runtime := mkRuntime {
  now : Z;                       (* virtual clock, in ms *)
  timers : list Timer;           (* armed timers, in arming order *)
  next_timer : nat;
  sleeps : gmap nat SleepState;  (* promises created by [sleep] *)
  next_sleep : nat;
  signals : gmap nat AbortSignal
}.

Definition empty_runtime : Runtime :=
  mkRuntime 0 [] 0 ∅ 0 ∅.

Definition set_timers (f : list Timer → list Timer) (rt : Runtime) : Runtime :=
  mkRuntime (now rt) (f (timers rt)) (next_timer rt) (sleeps rt)
            (next_sleep rt) (signals rt).

Definition set_sleeps (f : gmap nat SleepState → gmap nat SleepState)
    (rt : Runtime) : Runtime :=
  mkRuntime (now rt) (timers rt) (next_timer rt) (f (sleeps rt))
            (next_sleep rt) (signals rt).

Definition set_signals (f : gmap nat AbortSignal → gmap nat AbortSignal)
    (rt : Runtime) : Runtime :=
  mkRuntime (now rt) (timers rt) (next_timer rt) (sleeps rt)
            (next_sleep rt) (f (signals rt)).

(** [new Promise(...)] of [sleep]: a fresh pending promise. *)
Definition new_sleep_promise (rt : Runtime) : nat * Runtime :=
  (next_sleep rt,
   mkRuntime (now rt) (timers rt) (next_timer rt)
             (<[next_sleep rt := SleepPending]> (sleeps rt))
             (S (next_sleep rt)) (signals rt)).

(** [resolve()] / [reject(e)] of a promise: only a pending promise changes
    state, settling a settled promise does nothing. *)
Definition settle_sleep (p : nat) (st : SleepState) (rt : Runtime) : Runtime :=
  match sleeps rt !! p with
  | Some SleepPending => set_sleeps (<[p := st]>) rt
  | _ => rt
  end.

(** [setTimeout(cb, ms)]: a negative delay counts as 0. *)
Definition setTimeout (p : nat) (ms : Z) (rt : Runtime) : nat * Runtime :=
  (next_timer rt,
   mkRuntime (now rt)
             (timers rt ++ [mkTimer (next_timer rt) (now rt + Z.max 0 ms) p])
             (S (next_timer rt)) (sleeps rt) (next_sleep rt) (signals rt)).

(** [clearTimeout(id)]: nothing happens when the timer is not armed. *)
Definition clearTimeout (tid : nat) (rt : Runtime) : Runtime :=
  set_timers (filter (λ t, timer_id t ≠ tid)) rt.

(** [signal?.aborted]. *)
Definition signal_aborted (signal : option nat) (rt : Runtime) : bool :=
  match signal with
  | None => false
  | Some c =>
      match signals rt !! c with
      | Some sg => aborted sg
      | None => false
      end
  end.

(** [signal?.addEventListener("abort", listener, { once: true })]. *)
Definition add_abort_listener (signal : option nat) (l : nat * nat)
    (rt : Runtime) : Runtime :=
  match signal with
  | None => rt
  | Some c =>
      match signals rt !! c with
      | Some sg =>
          set_signals
            (<[c := mkSignal (aborted sg) (abort_listeners sg ++ [l])]>) rt
      | None => rt
      end
  end.

Definition Aborted : Error := mkError "Aborted".

(** The body of [sleep]'s abort listener:
    [clearTimeout(timeoutId); reject(new Error("Aborted"))]. *)
Definition run_abort_listener (rt : Runtime) (l : nat * nat) : Runtime :=
  settle_sleep l.2 (SleepRejected Aborted) (clearTimeout l.1 rt).

(** [new AbortController()], stored under key [c]. *)
Definition new_AbortController (c : nat) (rt : Runtime) : Runtime :=
  set_signals (<[c := mkSignal false []]>) rt.

(** [controller.abort()]: the first call sets the flag and runs the
    listeners in registration order (all are once-listeners, so they are
    removed); later calls do nothing. *)
Definition abort (c : nat) (rt : Runtime) : Runtime :=
  match signals rt !! c with
  | Some sg =>
      if aborted sg then rt
      else foldl run_abort_listener
                 (set_signals (<[c := mkSignal true []]>) rt)
                 (abort_listeners sg)
  | None => rt
  end.

(** The timer [tid] elapses: it leaves the armed timers, the clock reaches
    its due time, its callback resolves the promise. *)
Definition find_timer (tid : nat) (rt : Runtime) : option Timer :=
  list_find (λ t, timer_id t = tid) (timers rt) ≫= λ it, Some it.2.

Definition fire_timer (tid : nat) (rt : Runtime) : option Runtime :=
  match find_timer tid rt with
  | Some t =>
      let rt1 :=
        mkRuntime (Z.max (now rt) (timer_due t))
                  (filter (λ t', timer_id t' ≠ tid) (timers rt))
                  (next_timer rt) (sleeps rt) (next_sleep rt) (signals rt) in
      Some (settle_sleep (timer_resolves t) SleepResolved rt1)
  | None => None
  end.

(** ** sleep *)

(** [sleep(ms, { signal })]: returns the promise and the new runtime. *)
Definition sleep (ms : Z) (signal : option nat) (rt : Runtime)
    : nat * Runtime :=
  let '(p, rt) := new_sleep_promise rt in
  if signal_aborted signal rt then
    (p, settle_sleep p (SleepRejected Aborted) rt)
  else
    let '(timeoutId, rt) := setTimeout p ms rt in
    (p, add_abort_listener signal (timeoutId, p) rt).

Definition sleep_state (p : nat) (rt : Runtime) : SleepState :=
  default SleepPending (sleeps rt !! p).

(** What can happen to the runtime: a call of [sleep], a timer that
    elapses, [controller.abort()], a new [AbortController]. *)
Inductive RtLabel :=
  | RtSleep (ms : Z) (signal : option nat)
  | RtFire (tid : nat)
  | RtAbort (c : nat)
  | RtNewController (c : nat).

Definition rt_step (l : RtLabel) (rt : Runtime) : option Runtime :=
  match l with
  | RtSleep ms signal => Some (sleep ms signal rt).2
  | RtFire tid => fire_timer tid rt
  | RtAbort c => Some (abort c rt)
  | RtNewController c =>
      match signals rt !! c with
      | None => Some (new_AbortController c rt)
      | Some _ => None
      end
  end.

Fixpoint rt_exec (ls : list RtLabel) (rt : Runtime) : option Runtime :=
  match ls with
  | [] => Some rt
  | l :: ls' =>
      match rt_step l rt with
      | Some rt' => rt_exec ls' rt'
      | None => None
      end
  end.

(** Timer ids and promises in use are below the counters that hand out the
    fresh ones. *)
Definition rt_wf (rt : Runtime) : Prop :=
  (∀ t, t ∈ timers rt →
        timer_id t < next_timer rt ∧ timer_resolves t < next_sleep rt) ∧
  (∀ c sg l, signals rt !! c = Some sg → l ∈ abort_listeners sg →
        l.1 < next_timer rt ∧ l.2 < next_sleep rt).

(** The call of [sleep] that returned promise [p] is still waiting: [p] is
    pending, its timer [tid] is armed and is the only timer that resolves
    it, and (with a signal) its abort listener is registered on a signal
    that is not aborted; no other signal carries a listener on [tid] or
    [p]. *)
Definition armed (signal : option nat) (tid p : nat) (rt : Runtime) : Prop :=
  sleeps rt !! p = Some SleepPending ∧
  p < next_sleep rt ∧ tid < next_timer rt ∧
  (∃ t, t ∈ timers rt ∧ timer_id t = tid ∧ timer_resolves t = p) ∧
  (∀ t, t ∈ timers rt → timer_id t = tid ∨ timer_resolves t = p →
        timer_id t = tid ∧ timer_resolves t = p) ∧
  match signal with
  | Some c => ∃ sg, signals rt !! c = Some sg ∧ aborted sg = false ∧
                    (tid, p) ∈ abort_listeners sg
  | None => True
  end ∧
  (∀ c sg l, signals rt !! c = Some sg → l ∈ abort_listeners sg →
        l.1 = tid ∨ l.2 = p → signal = Some c ∧ l = (tid, p)).

(** Labels other than "timer [tid] elapses" and "[signal] is aborted". *)
Definition quiet (signal : option nat) (tid : nat) (l : RtLabel) : Prop :=
  l ≠ RtFire tid ∧ ∀ c, signal = Some c → l ≠ RtAbort c.

(** The promise [p] is settled with [st], for good. *)
Definition settled_at (p : nat) (st : SleepState) (rt : Runtime) : Prop :=
  sleeps rt !! p = Some st ∧ st ≠ SleepPending ∧ p < next_sleep rt.

(** Every signal of [r] is still a signal of [r']. *)
Definition sig_le (r r' : Runtime) : Prop :=
  ∀ k, is_Some (signals r !! k) → is_Some (signals r' !! k).

(** ** JobQueue: data *)

Section JobQueue.

Context {JobData JobResult : Type}.

(** A value that a processor throws (or rejects with): an [Error], or any
    other value, kept as the string [String(value)]. *)
Inductive Thrown :=
  | ThrownError (e : Error)
  | ThrownOther (str : string).

(** [error instanceof Error ? error : new Error(String(error))]. *)
Definition normalize (t : Thrown) : Error :=
  match t with
  | ThrownError e => e
  | ThrownOther str => mkError str
  end.

Inductive Outcome :=
  | Returns (v : JobResult)
  | Throws (t : Thrown).

(** State of a job's [JobPromise]. *)
Inductive PromiseState :=
  | Pending
  | Fulfilled (v : JobResult)
  | Rejected (reason : Thrown).

(** The [Job] record.  [abortController], [promise], [resolve] and [reject]
    are the objects allocated together with the job in [addJob]; they are
    addressed through the one reference [ref] of the job. *)
Record Job := mkJob {
  id : string;
  data : JobData;
  ref : nat
}.

(** What a call [jobProcessor(data, signal)] does, as far as the queue can
    see it. *)
Inductive Processor :=
  | ProcThrows (t : Thrown)
      (* the call itself throws: a processor that is not an async function *)
  | ProcSettled (out : Outcome)
      (* returns an already settled promise *)
  | ProcSleeps (ms : Z) (out : Outcome)
      (* async: [await sleep(ms, { signal })], then returns or throws *)
  | ProcExternal.
      (* returns a promise that the environment settles later *)

Variable jobProcessor : JobData → Processor.

Inductive EventType := jobStart | jobComplete | jobError | queueEmpty | error.

#[global] Instance EventType_eq_dec : EqDecision EventType.
Proof. solve_decision. Defined.

Inductive Event :=
  | JobStart (jobId : string) (d : JobData)
  | JobComplete (jobId : string) (d : JobData) (result : JobResult)
  | JobError (jobId : string) (d : JobData) (err : Error)
  | QueueEmpty
  | FatalError (err : Error).

Definition event_type (ev : Event) : EventType :=
  match ev with
  | JobStart _ _ => jobStart
  | JobComplete _ _ _ => jobComplete
  | JobError _ _ _ => jobError
  | QueueEmpty => queueEmpty
  | FatalError _ => error
  end.

(** Where a [processLoop] is suspended. *)
Inductive LoopState :=
  | AwaitBatch
      (* at [await Promise.all(processingPromises)] in processAvailableJobs,
         or at [await this.processAvailableJobs()] after its early return *)
  | AwaitSleep (p : nat)
      (* at [await sleep(...)], on the promise [p] *)
  | Returned.

(** Where the processor called for a dispatched job stands. *)
Inductive ProcState :=
  | ProcInFlight
  | ProcAwaitsSleep (p : nat) (out : Outcome)
  | ProcDone (out : Outcome).

(** One async closure launched by processAvailableJobs, suspended at
    [await this.jobProcessor(...)]: the job it closes over, the loop whose
    batch it belongs to, and its processor. *)
Record Task := mkTask {
  task_job : Job;
  task_loop : nat;
  task_proc : ProcState
}.

Record State := mkState {
  maxConcurrent : Z;
  intervalMs : Z;
  queue : list Job;
  running : gset string;
  listeners : EventType → list nat;
  jobCounter : nat;
  processingInterval : option nat;
  promises : gmap nat PromiseState;  (* the jobs' promises, by [ref] *)
  loops : list LoopState;            (* every processLoop ever started *)
  tasks : list Task;                 (* closures awaiting their processor *)
  rt : Runtime;
  emitted : list Event;              (* every emitEvent, in order *)
  delivered : list (nat * Event)     (* every listener call, in order *)
}.

Definition set_queue (q : list Job) (s : State) : State :=
  mkState (maxConcurrent s) (intervalMs s) q (running s) (listeners s)
          (jobCounter s) (processingInterval s) (promises s) (loops s)
          (tasks s) (rt s) (emitted s) (delivered s).

Definition set_running (r : gset string) (s : State) : State :=
  mkState (maxConcurrent s) (intervalMs s) (queue s) r (listeners s)
          (jobCounter s) (processingInterval s) (promises s) (loops s)
          (tasks s) (rt s) (emitted s) (delivered s).

Definition set_listeners (l : EventType → list nat) (s : State) : State :=
  mkState (maxConcurrent s) (intervalMs s) (queue s) (running s) l
          (jobCounter s) (processingInterval s) (promises s) (loops s)
          (tasks s) (rt s) (emitted s) (delivered s).

Definition set_jobCounter (n : nat) (s : State) : State :=
  mkState (maxConcurrent s) (intervalMs s) (queue s) (running s) (listeners s)
          n (processingInterval s) (promises s) (loops s)
          (tasks s) (rt s) (emitted s) (delivered s).

Definition set_processingInterval (v : option nat) (s : State) : State :=
  mkState (maxConcurrent s) (intervalMs s) (queue s) (running s) (listeners s)
          (jobCounter s) v (promises s) (loops s)
          (tasks s) (rt s) (emitted s) (delivered s).

Definition set_promises (m : gmap nat PromiseState) (s : State) : State :=
  mkState (maxConcurrent s) (intervalMs s) (queue s) (running s) (listeners s)
          (jobCounter s) (processingInterval s) m (loops s)
          (tasks s) (rt s) (emitted s) (delivered s).

Definition set_loops (l : list LoopState) (s : State) : State :=
  mkState (maxConcurrent s) (intervalMs s) (queue s) (running s) (listeners s)
          (jobCounter s) (processingInterval s) (promises s) l
          (tasks s) (rt s) (emitted s) (delivered s).

Definition set_tasks (t : list Task) (s : State) : State :=
  mkState (maxConcurrent s) (intervalMs s) (queue s) (running s) (listeners s)
          (jobCounter s) (processingInterval s) (promises s) (loops s)
          t (rt s) (emitted s) (delivered s).

Definition set_rt (r : Runtime) (s : State) : State :=
  mkState (maxConcurrent s) (intervalMs s) (queue s) (running s) (listeners s)
          (jobCounter s) (processingInterval s) (promises s) (loops s)
          (tasks s) r (emitted s) (delivered s).

(** ** JobQueue: the synchronous operations *)

(** The id given to the [n]-th job: [`job-${n}`]. *)
Definition jobId (n : nat) : string := "job-" +:+ pretty n.

(** [emitEvent(event, listenerArg)]: every listener of the event type is
    called, in registration order.  A listener that throws is caught and
    logged, so a listener changes nothing of the queue. *)
Definition emitEvent (ev : Event) (s : State) : State :=
  mkState (maxConcurrent s) (intervalMs s) (queue s) (running s) (listeners s)
          (jobCounter s) (processingInterval s) (promises s) (loops s)
          (tasks s) (rt s) (emitted s ++ [ev])
          (delivered s ++ map (λ l, (l, ev)) (listeners s (event_type ev))).

(** [job.resolve(v)] and [job.reject(reason)]: settle the job's promise if
    it is still pending. *)
Definition settle (r : nat) (st : PromiseState)
    (m : gmap nat PromiseState) : gmap nat PromiseState :=
  match m !! r with
  | Some Pending => <[r := st]> m
  | _ => m
  end.

Definition settle_job (job : Job) (st : PromiseState) (s : State) : State :=
  set_promises (settle (ref job) st (promises s)) s.

Definition resolve_job (job : Job) (v : JobResult) : State → State :=
  settle_job job (Fulfilled v).

Definition reject_job (job : Job) (reason : Thrown) : State → State :=
  settle_job job (Rejected reason).

(** [job.abortController.abort()]. *)
Definition abort_controller (job : Job) (s : State) : State :=
  set_rt (abort (ref job) (rt s)) s.

(** The code of the async closure after [await this.jobProcessor(...)]:
    the rest of the [try] block or the [catch] block, then [finally]. *)
Definition finish (job : Job) (out : Outcome) (s : State) : State :=
  let s :=
    match out with
    | Returns result =>
        resolve_job job result (emitEvent (JobComplete (id job) (data job) result) s)
    | Throws err =>
        reject_job job err (emitEvent (JobError (id job) (data job) (normalize err)) s)
    end in
  set_running (running s ∖ {[id job]}) s.

(** The async closure of processAvailableJobs, run for [job] by loop [i] up
    to its [await]. *)
Definition launch (i : nat) (job : Job) (s : State) : State :=
  let s := emitEvent (JobStart (id job) (data job)) s in
  match jobProcessor (data job) with
  | ProcThrows t => finish job (Throws t) s
  | ProcSettled out => set_tasks (tasks s ++ [mkTask job i (ProcDone out)]) s
  | ProcSleeps ms out =>
      let '(p, r) := sleep ms (Some (ref job)) (rt s) in
      set_tasks (tasks s ++ [mkTask job i (ProcAwaitsSleep p out)]) (set_rt r s)
  | ProcExternal => set_tasks (tasks s ++ [mkTask job i ProcInFlight]) s
  end.

(** [Math.min(this.maxConcurrent - this.running.size, this.queue.length)]. *)
Definition jobsToProcess (s : State) : Z :=
  Z.min (maxConcurrent s - Z.of_nat (size (running s)))
        (Z.of_nat (length (queue s))).

(** The [for] loop of processAvailableJobs.  [launch_head] is one turn, for
    the queue [job :: rest]:
    [const job = this.queue.shift()!; this.running.add(job.id);] and the
    closure; [dispatch] is [n] turns.  The queue cannot be empty at a
    [shift()], see [dispatch_takes_from_queue]. *)
Definition launch_head (i : nat) (job : Job) (rest : list Job)
    (s : State) : State :=
  launch i job (set_running ({[id job]} ∪ running s) (set_queue rest s)).

Fixpoint dispatch (i : nat) (n : nat) (s : State) : State :=
  match n with
  | 0 => s
  | S n' =>
      match queue s with
      | [] => s
      | job :: rest => dispatch i n' (launch_head i job rest s)
      end
  end.

(** processAvailableJobs, called by loop [i], up to its [await] (or to its
    early return). *)
Definition processAvailableJobs (i : nat) (s : State) : State :=
  if decide (jobsToProcess s ≤ 0)%Z then s
  else dispatch i (Z.to_nat (jobsToProcess s)) s.

(** startProcessing: nothing when the flag is set; otherwise set it and run
    a new processLoop up to its first [await], which is
    [await this.processAvailableJobs()]. *)
Definition startProcessing (s : State) : State :=
  match processingInterval s with
  | Some _ => s
  | None =>
      let s := set_processingInterval (Some 1) s in
      let i := length (loops s) in
      processAvailableJobs i (set_loops (loops s ++ [AwaitBatch]) s)
  end.

(** The constructor. *)
Definition newJobQueue (maxConcurrent intervalMs : Z) : State :=
  startProcessing
    (mkState maxConcurrent intervalMs [] ∅ (λ _, []) 0 None ∅ [] []
             empty_runtime [] []).

(** addJob: returns the job whose promise is handed to the caller. *)
Definition addJob (d : JobData) (s : State) : Job * State :=
  let n := S (jobCounter s) in
  let s := set_jobCounter n s in
  let job := mkJob (jobId n) d n in
  let s := set_rt (new_AbortController n (rt s)) s in
  let s := set_promises (<[n := Pending]> (promises s)) s in
  let s := set_queue (queue s ++ [job]) s in
  (job, match processingInterval s with
        | None => startProcessing s
        | Some _ => s
        end).

(** [new Error(`Job ${jobId} aborted`)]. *)
Definition JobAborted (jobId : string) : Thrown :=
  ThrownError (mkError ("Job " +:+ jobId +:+ " aborted")).

(** abortJob. *)
Definition abortJob (jobId : string) (s : State) : bool * State :=
  match list_find (λ job, id job = jobId) (queue s) with
  | Some (queueIndex, job) =>
      let s := abort_controller job s in
      let s := reject_job job (JobAborted jobId) s in
      (true, set_queue (delete queueIndex (queue s)) s)
  | None =>
      if decide (jobId ∈ running s) then
        match list_find (λ job, id job = jobId) (queue s) with
        | Some (_, job) => (true, abort_controller job s)
        | None => (false, s)
        end
      else (false, s)
  end.

(** [JobPromise.abort()]: [this._abortCallback(this._jobId)], the callback
    being [abortJob] of the queue. *)
Definition JobPromise_abort (job : Job) (s : State) : State :=
  (abortJob (id job) s).2.

Definition addEventListener (ev : EventType) (l : nat) (s : State) : State :=
  set_listeners
    (λ k, if decide (k = ev) then listeners s k ++ [l] else listeners s k) s.

(** removeEventListener: [indexOf] and [splice(index, 1)]. *)
Definition removeEventListener (ev : EventType) (l : nat) (s : State) : State :=
  match list_find (λ x, x = l) (listeners s ev) with
  | Some (index, _) =>
      set_listeners
        (λ k, if decide (k = ev) then delete index (listeners s ev)
              else listeners s k) s
  | None => s
  end.

(** [new Error("JobQueue disposed")]. *)
Definition Disposed : Thrown := ThrownError (mkError "JobQueue disposed").

(** The body of the [for ... of this.queue] of dispose. *)
Definition dispose_job (s : State) (job : Job) : State :=
  reject_job job Disposed (abort_controller job s).

(** dispose. *)
Definition dispose (s : State) : State :=
  let s := set_processingInterval None s in
  let s := foldl dispose_job s (queue s) in
  set_queue [] s.

(** ** JobQueue: the asynchronous part *)

Definition set_loop (i : nat) (st : LoopState) (s : State) : State :=
  set_loops (<[i := st]> (loops s)) s.

(** The end of one turn of the [while (true)] of processLoop:
    [await sleep(this.intervalMs)] when [this.intervalMs > 0], else
    [await sleep(0)]. *)
Definition processLoop_sleep (i : nat) (s : State) : State :=
  let '(p, r) :=
    sleep (if decide (0 < intervalMs s)%Z then intervalMs s else 0%Z) None (rt s) in
  set_loop i (AwaitSleep p) (set_rt r s).

(** processLoop [i] from the return of [await this.processAvailableJobs()]
    to its next [await], or to its [return]. *)
Definition processLoop_after_batch (i : nat) (s : State) : State :=
  if decide (length (queue s) = 0 ∧ size (running s) = 0) then
    let s := emitEvent QueueEmpty s in
    if decide (length (queue s) = 0) then
      set_loop i Returned (set_processingInterval None s)
    else processLoop_sleep i s
  else processLoop_sleep i s.

(** processLoop [i] from the return of [await sleep(...)]: the next turn of
    the [while], up to [await this.processAvailableJobs()]. *)
Definition processLoop_after_sleep (i : nat) (s : State) : State :=
  set_loop i AwaitBatch (processAvailableJobs i s).

(** processLoop [i] when its [sleep] is rejected: the error leaves the loop
    through both [catch] blocks and reaches the handler of
    [processLoop().catch(...)]. *)
Definition processLoop_fatal (i : nat) (s : State) : State :=
  let s := set_processingInterval None s in
  let s := emitEvent (FatalError (mkError "Fatal error in job queue processing")) s in
  set_loop i Returned (set_processingInterval None s).

(** [Promise.all(processingPromises)] of loop [i] is fulfilled when none of
    the closures of its batch is still suspended. *)
Definition batch_done (i : nat) (s : State) : Prop :=
  Forall (λ t, task_loop t ≠ i) (tasks s).

#[global] Instance batch_done_dec i s : Decision (batch_done i s).
Proof. unfold batch_done. apply _. Defined.

(** The settled outcome of the processor of a task, if it has one. *)
Definition proc_outcome (t : Task) (s : State) : option Outcome :=
  match task_proc t with
  | ProcInFlight => None
  | ProcAwaitsSleep p out =>
      match sleep_state p (rt s) with
      | SleepPending => None
      | SleepResolved => Some out
      | SleepRejected e => Some (Throws (ThrownError e))
      end
  | ProcDone out => Some out
  end.

Definition find_task (r : nat) (s : State) : option (nat * Task) :=
  list_find (λ t, ref (task_job t) = r) (tasks s).

(** What can happen next: a call of the public interface by the client, a
    timer that elapses, a suspended loop or closure that is resumed, a
    processor promise that the environment settles. *)
Inductive Label :=
  | CallAddJob (d : JobData)
  | CallAbortJob (jobId : string)
  | CallDispose
  | CallAddEventListener (ev : EventType) (l : nat)
  | CallRemoveEventListener (ev : EventType) (l : nat)
  | FireTimer (tid : nat)
  | ResumeLoop (i : nat)
  | ResumeTask (r : nat)
  | ProcSettles (r : nat) (out : Outcome).

Definition step (l : Label) (s : State) : option State :=
  match l with
  | CallAddJob d => Some (addJob d s).2
  | CallAbortJob jobId => Some (abortJob jobId s).2
  | CallDispose => Some (dispose s)
  | CallAddEventListener ev l => Some (addEventListener ev l s)
  | CallRemoveEventListener ev l => Some (removeEventListener ev l s)
  | FireTimer tid =>
      match fire_timer tid (rt s) with
      | Some r => Some (set_rt r s)
      | None => None
      end
  | ResumeLoop i =>
      match loops s !! i with
      | Some AwaitBatch =>
          if decide (batch_done i s) then Some (processLoop_after_batch i s) else None
      | Some (AwaitSleep p) =>
          match sleep_state p (rt s) with
          | SleepPending => None
          | SleepResolved => Some (processLoop_after_sleep i s)
          | SleepRejected _ => Some (processLoop_fatal i s)
          end
      | _ => None
      end
  | ResumeTask r =>
      match find_task r s with
      | Some (k, t) =>
          match proc_outcome t s with
          | Some out =>
              Some (finish (task_job t) out (set_tasks (delete k (tasks s)) s))
          | None => None
          end
      | None => None
      end
  | ProcSettles r out =>
      match find_task r s with
      | Some (k, t) =>
          match task_proc t with
          | ProcInFlight =>
              Some (set_tasks
                      (<[k := mkTask (task_job t) (task_loop t) (ProcDone out)]>
                         (tasks s)) s)
          | _ => None
          end
      | None => None
      end
  end.

Fixpoint exec (ls : list Label) (s : State) : option State :=
  match ls with
  | [] => Some s
  | l :: ls' =>
      match step l s with
      | Some s' => exec ls' s'
      | None => None
      end
  end.

(** The states a queue can be in. *)
Inductive reachable : State → Prop :=
  | reachable_new maxConcurrent intervalMs :
      reachable (newJobQueue maxConcurrent intervalMs)
  | reachable_step s l s' :
      reachable s → step l s = Some s' → reachable s'.

(** ** The event loop of the host, for timed runs *)

(** The host runs every continuation that is ready before it lets the next
    timer elapse, and timers elapse by due time, armed first first. *)
Definition ready_task (s : State) : option Label :=
  match list_find (λ t, is_Some (proc_outcome t s)) (tasks s) with
  | Some (_, t) => Some (ResumeTask (ref (task_job t)))
  | None => None
  end.

Definition loop_ready (s : State) (il : nat * LoopState) : Prop :=
  match il.2 with
  | AwaitBatch => batch_done il.1 s
  | AwaitSleep p => sleep_state p (rt s) ≠ SleepPending
  | Returned => False
  end.

#[global] Instance loop_ready_dec s il : Decision (loop_ready s il).
Proof. destruct il as [i []]; unfold loop_ready; simpl; apply _. Defined.

Definition ready_loop (s : State) : option Label :=
  match list_find (loop_ready s) (imap pair (loops s)) with
  | Some (_, il) => Some (ResumeLoop il.1)
  | None => None
  end.

Definition earliest (ts : list Timer) : option Timer :=
  foldl (λ best t,
           match best with
           | None => Some t
           | Some b => if decide (timer_due t < timer_due b)%Z then Some t else Some b
           end) None ts.

Definition next_label (s : State) : option Label :=
  match ready_task s with
  | Some l => Some l
  | None =>
      match ready_loop s with
      | Some l => Some l
      | None =>
          match earliest (timers (rt s)) with
          | Some t => Some (FireTimer (timer_id t))
          | None => None
          end
      end
  end.

(** Run the host until nothing is left to do, or the fuel is spent. *)
Fixpoint run (fuel : nat) (s : State) : State :=
  match fuel with
  | 0 => s
  | S fuel' =>
      match next_label s with
      | Some l =>
          match step l s with
          | Some s' => run fuel' s'
          | None => s
          end
      | None => s
      end
  end.

(** ** Invariants of the queue *)

(** A job carries the id made from its own sequence number, and that number
    has been handed out. *)
Definition job_ok (n : nat) (job : Job) : Prop :=
  id job = jobId (ref job) ∧ 1 ≤ ref job ≤ n.

(** [q] is the queue, [js] the jobs of the suspended closures: every job is
    well formed and its promise pending, no job occurs twice, the running
    set holds exactly the ids of the suspended closures, and the queue is in
    submission order. *)
Definition wf_core (n : nat) (q js : list Job) (R : gset string)
    (P : gmap nat PromiseState) : Prop :=
  Forall (λ job, job_ok n job ∧ P !! ref job = Some Pending) (q ++ js) ∧
  NoDup (ref <$> (q ++ js)) ∧
  R = list_to_set (id <$> js) ∧
  StronglySorted lt (ref <$> q).

Definition wf (s : State) : Prop :=
  wf_core (jobCounter s) (queue s) (task_job <$> tasks s) (running s)
          (promises s) ∧
  ∀ k, 1 ≤ k ≤ jobCounter s → is_Some (signals (rt s) !! k).

(** The events that [launch] emits for a job before its closure is
    suspended or, when the processor call throws, done. *)
Definition launch_events (job : Job) : list Event :=
  JobStart (id job) (data job) ::
  match jobProcessor (data job) with
  | ProcThrows t => [JobError (id job) (data job) (normalize t)]
  | _ => []
  end.

Definition is_JobStart (ev : Event) : bool :=
  match ev with
  | JobStart _ _ => true
  | _ => false
  end.


(** The promise state that an outcome of the processor stands for. *)
Definition outcome_state (out : Outcome) : PromiseState :=
  match out with
  | Returns v => Fulfilled v
  | Throws t => Rejected t
  end.

(** The jobStart event of a job. *)
Definition start_event (job : Job) : Event := JobStart (id job) (data job).

(** What one step can do to the queue, to the trace and to the running
    set; [added] is the id of the job that the step itself submits. *)
Definition op_facts (added : option string) (s s' : State) : Prop :=
  maxConcurrent s' = maxConcurrent s ∧
  jobCounter s ≤ jobCounter s' ∧
  (∀ job, job ∈ queue s' → job ∈ queue s ∨ Some (id job) = added) ∧
  (∃ new, emitted s' = emitted s ++ new ∧
     ∀ jid d, JobStart jid d ∈ new →
       (∃ job, job ∈ queue s ∧ id job = jid) ∨ Some jid = added) ∧
  ((Z.of_nat (size (running s)) ≤ maxConcurrent s)%Z →
   (Z.of_nat (size (running s')) ≤ maxConcurrent s')%Z).

(** The job with id [jid] has been submitted and is no longer queued. *)
Definition never_again (jid : string) (s : State) : Prop :=
  (∀ job, job ∈ queue s → id job ≠ jid) ∧
  ∃ k, jid = jobId k ∧ k ≤ jobCounter s.

(** A script of steps, skipping the steps that are not enabled. *)
Definition script (ls : list Label) (s : State) : State :=
  foldl (λ s l, default s (step l s)) s ls.

End JobQueue.

(** ** Concrete queues *)

(** The processor of the concurrency test: the job data is a number [d],
    [await sleep(d * 10, { signal }); return d]. *)
Definition timed_processor (d : nat) : @Processor nat :=
  ProcSleeps (Z.of_nat d * 10) (Returns d).

(** [new JobQueue(processor, 2, 0)], then the jobs 3, 1 and 2 (30 ms, 10 ms
    and 20 ms) added in the same synchronous block. *)
Definition three_jobs : @State nat nat :=
  script timed_processor [CallAddJob 3; CallAddJob 1; CallAddJob 2]
         (newJobQueue timed_processor 2 0).

(** A queue of limit 1 whose first job is running and whose second job is
    queued. *)
Definition one_running_one_queued : @State nat nat :=
  script timed_processor
         [CallAddJob 3; CallAddJob 1; ResumeLoop 0; FireTimer 0; ResumeLoop 0]
         (newJobQueue timed_processor 1 0).




(** * Properties of the runtime and of [sleep] *)

Lemma settle_sleep_fields p st rt :
  now (settle_sleep p st rt) = now rt ∧
  timers (settle_sleep p st rt) = timers rt ∧
  next_timer (settle_sleep p st rt) = next_timer rt ∧
  next_sleep (settle_sleep p st rt) = next_sleep rt ∧
  signals (settle_sleep p st rt) = signals rt.
Proof.
  unfold settle_sleep. destruct (sleeps rt !! p) as [[]|]; done.
Qed.

Lemma settle_sleep_lookup p st rt q :
  sleeps (settle_sleep p st rt) !! q =
    if decide (q = p ∧ sleeps rt !! p = Some SleepPending) then Some st
    else sleeps rt !! q.
Proof.
  unfold settle_sleep.
  destruct (sleeps rt !! p) as [[]|] eqn:E; simpl;
    case_decide as H; try done; try (destruct H; congruence).
  - destruct H as [-> _]. by rewrite lookup_insert_eq.
  - rewrite lookup_insert_ne; [done|]. intros ->. by apply H.
Qed.

Lemma settle_sleep_keeps p st rt q stq :
  sleeps rt !! q = Some stq → stq ≠ SleepPending →
  sleeps (settle_sleep p st rt) !! q = Some stq.
Proof.
  intros Hq Hne. rewrite settle_sleep_lookup.
  case_decide as H; [|done]. destruct H as [-> H]. congruence.
Qed.

Lemma settle_sleep_other p st rt q :
  q ≠ p → sleeps (settle_sleep p st rt) !! q = sleeps rt !! q.
Proof.
  intros Hne. rewrite settle_sleep_lookup. case_decide as H; [|done].
  by destruct H.
Qed.

Lemma settle_sleep_pending p st rt :
  sleeps rt !! p = Some SleepPending →
  sleeps (settle_sleep p st rt) !! p = Some st.
Proof.
  intros Hp. rewrite settle_sleep_lookup. by rewrite decide_True.
Qed.

(** The listeners run by [abort]. *)
Lemma run_listeners_fields ls : ∀ rt,
  now (foldl run_abort_listener rt ls) = now rt ∧
  next_timer (foldl run_abort_listener rt ls) = next_timer rt ∧
  next_sleep (foldl run_abort_listener rt ls) = next_sleep rt ∧
  signals (foldl run_abort_listener rt ls) = signals rt.
Proof.
  induction ls as [|l ls IH]; intros rt; simpl; [done|].
  destruct (IH (run_abort_listener rt l)) as (-> & -> & -> & ->).
  unfold run_abort_listener.
  destruct (settle_sleep_fields l.2 (SleepRejected Aborted) (clearTimeout l.1 rt))
    as (-> & _ & -> & -> & ->). done.
Qed.

Lemma run_listeners_timers ls : ∀ rt t,
  t ∈ timers (foldl run_abort_listener rt ls) ↔
  t ∈ timers rt ∧ timer_id t ∉ ls.*1.
Proof.
  induction ls as [|l ls IH]; intros rt t; simpl.
  - split; [intros H; split; [done|] | by intros [H _]]. by intros ?%elem_of_nil.
  - rewrite IH. unfold run_abort_listener.
    destruct (settle_sleep_fields l.2 (SleepRejected Aborted) (clearTimeout l.1 rt))
      as (_ & -> & _). simpl.
    rewrite list_elem_of_filter, not_elem_of_cons. tauto.
Qed.

Lemma run_listeners_keeps ls : ∀ rt q stq,
  sleeps rt !! q = Some stq → stq ≠ SleepPending →
  sleeps (foldl run_abort_listener rt ls) !! q = Some stq.
Proof.
  induction ls as [|l ls IH]; intros rt q stq Hq Hne; simpl; [done|].
  apply IH; [|done]. unfold run_abort_listener.
  by apply settle_sleep_keeps.
Qed.

Lemma run_listeners_other ls : ∀ rt q,
  q ∉ ls.*2 →
  sleeps (foldl run_abort_listener rt ls) !! q = sleeps rt !! q.
Proof.
  induction ls as [|l ls IH]; intros rt q Hq; simpl; [done|].
  simpl in Hq. apply not_elem_of_cons in Hq as [Hne Hq].
  rewrite IH by done. unfold run_abort_listener.
  by rewrite settle_sleep_other.
Qed.

Lemma run_listeners_rejects ls : ∀ rt q,
  sleeps rt !! q = Some SleepPending → q ∈ ls.*2 →
  sleeps (foldl run_abort_listener rt ls) !! q = Some (SleepRejected Aborted).
Proof.
  induction ls as [|l ls IH]; intros rt q Hq Hin; simpl.
  - by apply elem_of_nil in Hin.
  - simpl in Hin. destruct (decide (q = l.2)) as [->|Hne].
    + apply run_listeners_keeps; [|done]. unfold run_abort_listener.
      by apply settle_sleep_pending.
    + apply elem_of_cons in Hin as [?|Hin]; [done|].
      apply IH; [|done]. unfold run_abort_listener.
      by rewrite settle_sleep_other.
Qed.

Lemma find_timer_Some tid rt t :
  find_timer tid rt = Some t → t ∈ timers rt ∧ timer_id t = tid.
Proof.
  unfold find_timer. destruct (list_find _ _) as [[k t']|] eqn:E; simpl; [|done].
  intros [= <-]. apply list_find_Some in E as (Hk & Hid & _).
  split; [|done]. by eapply list_elem_of_lookup_2.
Qed.

Lemma find_timer_is_Some tid rt t :
  t ∈ timers rt → timer_id t = tid → is_Some (find_timer tid rt).
Proof.
  intros Hin Hid. unfold find_timer.
  destruct (list_find (λ t, timer_id t = tid) (timers rt)) as [[k t']|] eqn:E;
    simpl; [by eexists|].
  apply list_find_None in E. rewrite Forall_forall in E.
  by destruct (E t Hin).
Qed.

Lemma sleep_fields ms signal rt :
  (sleep ms signal rt).1 = next_sleep rt ∧
  next_sleep (sleep ms signal rt).2 = S (next_sleep rt) ∧
  now (sleep ms signal rt).2 = now rt ∧
  ∀ q, q ≠ next_sleep rt →
       sleeps (sleep ms signal rt).2 !! q = sleeps rt !! q.
Proof.
  unfold sleep, new_sleep_promise. simpl.
  destruct (signal_aborted _ _); simpl.
  - destruct (settle_sleep_fields (next_sleep rt) (SleepRejected Aborted)
      (mkRuntime (now rt) (timers rt) (next_timer rt)
         (<[next_sleep rt:=SleepPending]> (sleeps rt)) (S (next_sleep rt))
         (signals rt))) as (-> & _ & _ & -> & _).
    simpl. repeat split; try done. intros q Hq.
    rewrite settle_sleep_other by done. simpl. by rewrite lookup_insert_ne.
  - unfold add_abort_listener. simpl.
    destruct signal as [c|]; simpl; [destruct (signals rt !! c); simpl|];
      repeat split; try done; intros q Hq; by rewrite lookup_insert_ne.
Qed.

(** A settled promise keeps its state, whatever happens to the runtime. *)
Lemma settled_at_step l rt rt' p st :
  settled_at p st rt → rt_step l rt = Some rt' → settled_at p st rt'.
Proof.
  intros (Hp & Hne & Hlt) Hstep. destruct l as [ms signal|tid|c|c]; simpl in Hstep.
  - injection Hstep as <-.
    destruct (sleep_fields ms signal rt) as (_ & Hn & _ & Hs).
    split; [|split; [done|lia]]. rewrite Hs; [done|lia].
  - unfold fire_timer in Hstep. destruct (find_timer tid rt) as [t|]; [|done].
    injection Hstep as <-.
    match goal with |- settled_at _ _ (settle_sleep ?q ?s ?r) =>
      destruct (settle_sleep_fields q s r) as (_ & _ & _ & Hn & _) end.
    split; [by apply settle_sleep_keeps|]. split; [done|]. by rewrite Hn.
  - injection Hstep as <-. unfold abort.
    destruct (signals rt !! c) as [sg|]; [|done].
    destruct (aborted sg); [done|].
    match goal with |- settled_at _ _ (foldl _ ?r ?ls) =>
      destruct (run_listeners_fields ls r) as (_ & _ & Hn & _) end.
    split; [by apply run_listeners_keeps|]. split; [done|]. by rewrite Hn.
  - destruct (signals rt !! c); [done|]. by injection Hstep as <-.
Qed.

Lemma settled_at_exec ls : ∀ rt rt' p st,
  settled_at p st rt → rt_exec ls rt = Some rt' → settled_at p st rt'.
Proof.
  induction ls as [|l ls IH]; intros rt rt' p st Hs Hex; simpl in Hex.
  - by injection Hex as <-.
  - destruct (rt_step l rt) as [rt1|] eqn:E; [|done].
    eapply IH; [|done]. by eapply settled_at_step.
Qed.

Lemma sleep_unfold_live ms signal rt :
  signal_aborted signal rt = false →
  (sleep ms signal rt).2 =
    add_abort_listener signal (next_timer rt, next_sleep rt)
      (mkRuntime (now rt)
         (timers rt ++ [mkTimer (next_timer rt) (now rt + Z.max 0 ms) (next_sleep rt)])
         (S (next_timer rt)) (<[next_sleep rt := SleepPending]> (sleeps rt))
         (S (next_sleep rt)) (signals rt)).
Proof.
  intros Hna. unfold sleep, new_sleep_promise.
  assert (signal_aborted signal
    (mkRuntime (now rt) (timers rt) (next_timer rt)
       (<[next_sleep rt:=SleepPending]> (sleeps rt)) (S (next_sleep rt))
       (signals rt)) = false) as -> by (by destruct signal).
  done.
Qed.

(** [sleep] called with a signal that is not aborted leaves a waiting
    delay behind. *)
Lemma sleep_arms ms signal rt :
  rt_wf rt →
  signal_aborted signal rt = false →
  (∀ c, signal = Some c → is_Some (signals rt !! c)) →
  armed signal (next_timer rt) (next_sleep rt) (sleep ms signal rt).2 ∧
  mkTimer (next_timer rt) (now rt + Z.max 0 ms) (next_sleep rt)
    ∈ timers (sleep ms signal rt).2.
Proof.
  intros [Hwt Hwl] Hna Hex. rewrite sleep_unfold_live by done.
  assert (Hold : ∀ t, t ∈ timers rt →
            timer_id t = next_timer rt ∨ timer_resolves t = next_sleep rt →
            False).
  { intros t Ht [H|H]; destruct (Hwt t Ht); lia. }
  assert (Holdl : ∀ c sg l, signals rt !! c = Some sg →
            l ∈ abort_listeners sg → l.1 = next_timer rt ∨ l.2 = next_sleep rt →
            False).
  { intros c sg l Hc Hl [H|H]; destruct (Hwl c sg l Hc Hl); lia. }
  assert (Hnew : ∀ t, t ∈ timers rt ++
              [mkTimer (next_timer rt) (now rt + Z.max 0 ms) (next_sleep rt)] →
            timer_id t = next_timer rt ∨ timer_resolves t = next_sleep rt →
            timer_id t = next_timer rt ∧ timer_resolves t = next_sleep rt).
  { intros t [H|H%list_elem_of_singleton]%elem_of_app Ht; [|by subst].
    by destruct (Hold t H). }
  destruct signal as [c|]; simpl.
  - destruct (Hex c eq_refl) as [sg Hsg]. simpl in Hna. rewrite Hsg in Hna.
    rewrite Hsg. simpl. split; [|simpl; apply elem_of_app; right; by left]. unfold armed; simpl.
    split; [by rewrite lookup_insert_eq|].
    split; [lia|]. split; [lia|].
    split; [eexists; split; [apply elem_of_app; right; by left|done]|].
    split; [done|].
    split.
    + eexists. rewrite lookup_insert_eq. split; [done|]. simpl.
      split; [done|]. apply elem_of_app; right; by left.
    + intros c' sg' l Hc' Hl Hor.
      destruct (decide (c' = c)) as [->|Hne].
      * rewrite lookup_insert_eq in Hc'. injection Hc' as <-. simpl in Hl.
        apply elem_of_app in Hl as [Hl|Hl%list_elem_of_singleton]; [|done].
        by destruct (Holdl _ _ _ Hsg Hl).
      * rewrite lookup_insert_ne in Hc' by done. by destruct (Holdl _ _ _ Hc' Hl).
  - split; [|simpl; apply elem_of_app; right; by left]. unfold armed; simpl.
    split; [by rewrite lookup_insert_eq|].
    split; [lia|]. split; [lia|].
    split; [eexists; split; [apply elem_of_app; right; by left|done]|].
    split; [done|]. split; [done|].
    intros c' sg' l Hc' Hl Hor. by destruct (Holdl _ _ _ Hc' Hl).
Qed.

(** A waiting delay keeps waiting while its timer does not elapse and its
    signal is not aborted. *)
Lemma armed_step signal tid p l rt rt' :
  armed signal tid p rt → quiet signal tid l → rt_step l rt = Some rt' →
  armed signal tid p rt'.
Proof.
  intros Harm [Hnf Hna] Hstep.
  pose proof Harm as
    (Hp & Hlp & Hlt & (t0 & Ht0 & Hid0 & Hres0) & Huniq & Hsig & Hothers).
  destruct l as [ms signal'|tid'|c'|c']; simpl in Hstep.
  - (* another call of sleep *)
    injection Hstep as <-. unfold sleep, new_sleep_promise.
    destruct (signal_aborted signal' _) eqn:Hab.
    + simpl. unfold armed.
      match goal with |- context [settle_sleep ?q ?s ?r] =>
        destruct (settle_sleep_fields q s r) as (_ & -> & -> & -> & ->);
        rewrite (settle_sleep_other q s r p) by (simpl; lia) end.
      simpl. rewrite lookup_insert_ne by lia.
      split; [done|]. split; [lia|]. split; [lia|]. split; [eauto|]. done.
    + simpl.
      assert (Hfresh : ∀ t, t ∈ timers rt ++
                [mkTimer (next_timer rt) (now rt + Z.max 0 ms) (next_sleep rt)] →
                timer_id t = tid ∨ timer_resolves t = p →
                timer_id t = tid ∧ timer_resolves t = p).
      { intros t [H|H%list_elem_of_singleton]%elem_of_app Hor; [eauto|].
        subst t. simpl in Hor. lia. }
      unfold add_abort_listener. simpl.
      destruct signal' as [c'|]; [destruct (signals rt !! c') as [sg'|] eqn:Hc'|];
        unfold armed; simpl; rewrite lookup_insert_ne by lia.
      * split; [done|]. split; [lia|]. split; [lia|].
        split; [exists t0; split; [apply elem_of_app; by left|done]|].
        split; [done|]. split.
        -- destruct signal as [c|]; [|done].
           destruct Hsig as (sg & Hsg & Hab' & Hl).
           destruct (decide (c = c')) as [->|Hne].
           ++ rewrite lookup_insert_eq. eexists. split; [done|]. simpl.
              assert (sg' = sg) as -> by congruence.
              split; [done|]. apply elem_of_app; by left.
           ++ rewrite lookup_insert_ne by done. eauto.
        -- intros c sg l Hc Hl Hor.
           destruct (decide (c = c')) as [->|Hne].
           ++ rewrite lookup_insert_eq in Hc. injection Hc as <-. simpl in Hl.
              apply elem_of_app in Hl as [Hl|Hl%list_elem_of_singleton]; [eauto|].
              subst l. simpl in Hor. lia.
           ++ rewrite lookup_insert_ne in Hc by done. eauto.
      * split; [done|]. split; [lia|]. split; [lia|].
        split; [exists t0; split; [apply elem_of_app; by left|done]|]. done.
      * split; [done|]. split; [lia|]. split; [lia|].
        split; [exists t0; split; [apply elem_of_app; by left|done]|]. done.
  - (* another timer elapses *)
    assert (tid' ≠ tid) as Hne by congruence.
    unfold fire_timer in Hstep.
    destruct (find_timer tid' rt) as [t'|] eqn:Hfind; [|done].
    injection Hstep as <-.
    apply find_timer_Some in Hfind as [Ht' Hid'].
    assert (timer_resolves t' ≠ p) as Hres'.
    { intros Hr. destruct (Huniq t' Ht' (or_intror Hr)). congruence. }
    unfold armed.
    match goal with |- context [settle_sleep ?q ?s ?r] =>
      destruct (settle_sleep_fields q s r) as (_ & -> & -> & -> & ->);
      rewrite (settle_sleep_other q s r p) by done end.
    simpl. split; [done|]. split; [done|]. split; [done|].
    split.
    { exists t0. split; [|by split]. apply list_elem_of_filter. split; [congruence|done]. }
    split; [|by split].
    intros t [_ Ht]%list_elem_of_filter. eauto.
  - (* another signal is aborted *)
    injection Hstep as <-. unfold abort.
    destruct (signals rt !! c') as [sg'|] eqn:Hc'; [|done].
    destruct (aborted sg') eqn:Hab; [done|].
    assert (Hnot : signal ≠ Some c') by (intros ->; by eapply Hna).
    assert (Hfst : tid ∉ (abort_listeners sg').*1).
    { intros (l & -> & Hl)%list_elem_of_fmap.
      by destruct (Hothers _ _ _ Hc' Hl (or_introl eq_refl)). }
    assert (Hsnd : p ∉ (abort_listeners sg').*2).
    { intros (l & -> & Hl)%list_elem_of_fmap.
      by destruct (Hothers _ _ _ Hc' Hl (or_intror eq_refl)). }
    unfold armed.
    match goal with |- context [foldl _ ?r ?ls] =>
      destruct (run_listeners_fields ls r) as (_ & -> & -> & ->);
      rewrite (run_listeners_other ls r p) by done end.
    simpl. split; [done|]. split; [done|]. split; [done|].
    split.
    { exists t0. split; [|by split]. apply run_listeners_timers. simpl.
      split; [done|congruence]. }
    split.
    { intros t [Ht _]%run_listeners_timers. simpl in Ht. eauto. }
    split.
    + destruct signal as [c|]; [|done].
      assert (c ≠ c') by congruence. by rewrite lookup_insert_ne.
    + intros c sg l Hc Hl Hor.
      destruct (decide (c = c')) as [->|Hne].
      * rewrite lookup_insert_eq in Hc. injection Hc as <-.
        by apply elem_of_nil in Hl.
      * rewrite lookup_insert_ne in Hc by done. eauto.
  - (* a new controller *)
    destruct (signals rt !! c') eqn:Hc'; [done|]. injection Hstep as <-.
    unfold armed. simpl. split; [done|]. split; [done|]. split; [done|].
    split; [eauto|]. split; [done|]. split.
    + destruct signal as [c|]; [|done].
      destruct Hsig as (sg & Hsg & Hrest).
      assert (c ≠ c') by congruence. rewrite lookup_insert_ne by done. eauto.
    + intros c sg l Hc Hl Hor.
      destruct (decide (c = c')) as [->|Hne].
      * rewrite lookup_insert_eq in Hc. injection Hc as <-.
        by apply elem_of_nil in Hl.
      * rewrite lookup_insert_ne in Hc by done. eauto.
Qed.

Lemma armed_exec signal tid p ls : ∀ rt rt',
  armed signal tid p rt → Forall (quiet signal tid) ls →
  rt_exec ls rt = Some rt' → armed signal tid p rt'.
Proof.
  induction ls as [|l ls IH]; intros rt rt' Harm Hq Hex; simpl in Hex.
  - by injection Hex as <-.
  - apply Forall_cons in Hq as [Hl Hq].
    destruct (rt_step l rt) as [rt1|] eqn:E; [|done].
    eapply IH; [|done|done]. by eapply armed_step.
Qed.

(** Aborting the signal of a waiting delay rejects it and clears its timer. *)
Lemma armed_abort c tid p rt :
  armed (Some c) tid p rt →
  settled_at p (SleepRejected Aborted) (abort c rt) ∧
  ∀ t, t ∈ timers (abort c rt) → timer_id t ≠ tid.
Proof.
  intros (Hp & Hlp & Hlt & _ & _ & (sg & Hsg & Hab & Hl) & _).
  unfold abort. rewrite Hsg, Hab.
  assert (Hin : p ∈ (abort_listeners sg).*2).
  { apply list_elem_of_fmap. by exists (tid, p). }
  assert (Hin' : tid ∈ (abort_listeners sg).*1).
  { apply list_elem_of_fmap. by exists (tid, p). }
  split.
  - split; [by apply run_listeners_rejects|]. split; [done|].
    match goal with |- context [foldl _ ?r ?ls] =>
      by destruct (run_listeners_fields ls r) as (_ & _ & -> & _) end.
  - intros t [_ Ht]%run_listeners_timers Heq. apply Ht. by rewrite Heq.
Qed.

(** The timer of a waiting delay can elapse, and resolves it. *)
Lemma armed_fire signal tid p rt :
  armed signal tid p rt →
  ∃ rt', fire_timer tid rt = Some rt' ∧ settled_at p SleepResolved rt'.
Proof.
  intros (Hp & Hlp & Hlt & (t0 & Ht0 & Hid0 & Hres0) & Huniq & _).
  destruct (find_timer_is_Some tid rt t0 Ht0 Hid0) as [t Hfind].
  unfold fire_timer. rewrite Hfind. eexists. split; [done|].
  apply find_timer_Some in Hfind as [Ht Hid].
  destruct (Huniq t Ht (or_introl Hid)) as [_ ->].
  split; [by apply settle_sleep_pending|]. split; [done|].
  match goal with |- context [settle_sleep ?q ?s ?r] =>
    by destruct (settle_sleep_fields q s r) as (_ & _ & _ & -> & _) end.
Qed.

Lemma rt_wf_empty : rt_wf empty_runtime.
Proof.
  split.
  - intros t Ht. by apply elem_of_nil in Ht.
  - intros c sg l Hc. simpl in Hc. by rewrite lookup_empty in Hc.
Qed.

Lemma rt_wf_step l rt rt' : rt_wf rt → rt_step l rt = Some rt' → rt_wf rt'.
Proof.
  intros [Hwt Hwl] Hstep. destruct l as [ms signal|tid|c|c]; simpl in Hstep.
  - injection Hstep as <-. unfold sleep, new_sleep_promise.
    destruct (signal_aborted signal _) eqn:Hab; simpl.
    + unfold rt_wf.
      match goal with |- context [settle_sleep ?q ?s ?r] =>
        destruct (settle_sleep_fields q s r) as (_ & -> & -> & -> & ->) end.
      simpl. split.
      * intros t Ht. destruct (Hwt t Ht). lia.
      * intros c sg l Hc Hl. destruct (Hwl c sg l Hc Hl). lia.
    + assert (Ht : ∀ t, t ∈ timers rt ++
                [mkTimer (next_timer rt) (now rt + Z.max 0 ms) (next_sleep rt)] →
                timer_id t < S (next_timer rt) ∧
                timer_resolves t < S (next_sleep rt)).
      { intros t [H|H%list_elem_of_singleton]%elem_of_app.
        - destruct (Hwt t H). lia.
        - subst t. simpl. lia. }
      assert (Hl : ∀ c sg l, signals rt !! c = Some sg → l ∈ abort_listeners sg →
                l.1 < S (next_timer rt) ∧ l.2 < S (next_sleep rt)).
      { intros c sg l Hc Hl. destruct (Hwl c sg l Hc Hl). lia. }
      unfold add_abort_listener. simpl.
      destruct signal as [c|]; [destruct (signals rt !! c) as [sg|] eqn:Hc|];
        (split; simpl; [done|]); [|done|done].
      intros c' sg' l Hc' Hin.
      destruct (decide (c' = c)) as [->|Hne].
      * rewrite lookup_insert_eq in Hc'. injection Hc' as <-. simpl in Hin.
        apply elem_of_app in Hin as [Hin|Hin%list_elem_of_singleton]; [eauto|].
        subst l. simpl. lia.
      * rewrite lookup_insert_ne in Hc' by done. eauto.
  - unfold fire_timer in Hstep. destruct (find_timer tid rt) as [t|]; [|done].
    injection Hstep as <-. unfold rt_wf.
    match goal with |- context [settle_sleep ?q ?s ?r] =>
      destruct (settle_sleep_fields q s r) as (_ & -> & -> & -> & ->) end.
    simpl. split; [|done]. intros t' [_ Ht']%list_elem_of_filter. eauto.
  - injection Hstep as <-. unfold abort.
    destruct (signals rt !! c) as [sg|] eqn:Hc; [|by split].
    destruct (aborted sg); [by split|]. unfold rt_wf.
    match goal with |- context [foldl _ ?r ?ls] =>
      destruct (run_listeners_fields ls r) as (_ & -> & -> & ->) end.
    simpl. split.
    + intros t [Ht _]%run_listeners_timers. eauto.
    + intros c' sg' l Hc' Hin.
      destruct (decide (c' = c)) as [->|Hne].
      * rewrite lookup_insert_eq in Hc'. injection Hc' as <-.
        by apply elem_of_nil in Hin.
      * rewrite lookup_insert_ne in Hc' by done. eauto.
  - destruct (signals rt !! c) eqn:Hc; [done|]. injection Hstep as <-.
    split; simpl; [done|]. intros c' sg' l Hc' Hin.
    destruct (decide (c' = c)) as [->|Hne].
    + rewrite lookup_insert_eq in Hc'. injection Hc' as <-.
      by apply elem_of_nil in Hin.
    + rewrite lookup_insert_ne in Hc' by done. eauto.
Qed.

Lemma settled_at_state p st rt : settled_at p st rt → sleep_state p rt = st.
Proof. intros (Hp & _). unfold sleep_state. by rewrite Hp. Qed.

Lemma sleep_rejects_aborted ms signal rt :
  signal_aborted signal rt = true →
  settled_at (next_sleep rt) (SleepRejected Aborted) (sleep ms signal rt).2 ∧
  timers (sleep ms signal rt).2 = timers rt ∧
  next_timer (sleep ms signal rt).2 = next_timer rt.
Proof.
  intros Hab. unfold sleep, new_sleep_promise.
  assert (signal_aborted signal
    (mkRuntime (now rt) (timers rt) (next_timer rt)
       (<[next_sleep rt:=SleepPending]> (sleeps rt)) (S (next_sleep rt))
       (signals rt)) = true) as -> by (by destruct signal).
  simpl. unfold settled_at.
  match goal with |- context [settle_sleep ?q ?s ?r] =>
    destruct (settle_sleep_fields q s r) as (_ & -> & -> & -> & _) end.
  simpl. split; [|done]. split; [|split; [done|lia]].
  apply settle_sleep_pending. simpl. by rewrite lookup_insert_eq.
Qed.

(** C3: the cancellable delay.  With a token already cancelled at call
    time, [sleep] fails at once with the "Aborted" error and arms no timer.
    Otherwise it arms a timer and stays pending as long as neither the
    timer elapses nor the token is cancelled; if the token is then
    cancelled, the delay fails with "Aborted", its timer is cleared and it
    never resolves later; if the timer elapses first, the delay succeeds
    (and a later cancellation does not change that). *)
Theorem sleep_cancellable ms signal rt :
  rt_wf rt →
  (∀ c, signal = Some c → is_Some (signals rt !! c)) →
  let p := (sleep ms signal rt).1 in
  let rt1 := (sleep ms signal rt).2 in
  let tid := next_timer rt in
  (signal_aborted signal rt = true →
     sleep_state p rt1 = SleepRejected Aborted ∧
     timers rt1 = timers rt ∧ next_timer rt1 = next_timer rt ∧
     ∀ ls rt', rt_exec ls rt1 = Some rt' →
               sleep_state p rt' = SleepRejected Aborted) ∧
  (signal_aborted signal rt = false →
     mkTimer tid (now rt + Z.max 0 ms) p ∈ timers rt1 ∧
     ∀ ls rt2, Forall (quiet signal tid) ls → rt_exec ls rt1 = Some rt2 →
       sleep_state p rt2 = SleepPending ∧
       (∀ c, signal = Some c →
          sleep_state p (abort c rt2) = SleepRejected Aborted ∧
          (∀ t, t ∈ timers (abort c rt2) → timer_id t ≠ tid) ∧
          ∀ ls' rt', rt_exec ls' (abort c rt2) = Some rt' →
                     sleep_state p rt' = SleepRejected Aborted) ∧
       ∃ rt3, fire_timer tid rt2 = Some rt3 ∧
              sleep_state p rt3 = SleepResolved ∧
              ∀ ls' rt', rt_exec ls' rt3 = Some rt' →
                         sleep_state p rt' = SleepResolved).
Proof.
  intros Hwf Hex p rt1 tid.
  assert (Hp : p = next_sleep rt) by apply sleep_fields.
  split.
  - intros Hab.
    destruct (sleep_rejects_aborted ms signal rt Hab) as (Hs & Ht & Hn).
    subst p rt1. rewrite Hp. split; [by apply settled_at_state|].
    split; [done|]. split; [done|].
    intros ls rt' Hexec. eapply settled_at_state, settled_at_exec; eauto.
  - intros Hlive.
    destruct (sleep_arms ms signal rt Hwf Hlive Hex) as [Harm Htimer].
    subst rt1 tid. rewrite Hp. split; [done|].
    intros ls rt2 Hq Hexec.
    pose proof (armed_exec _ _ _ _ _ _ Harm Hq Hexec) as Harm2.
    split; [|split].
    + destruct Harm2 as (Hpend & _). unfold sleep_state. by rewrite Hpend.
    + intros c ->. destruct (armed_abort _ _ _ _ Harm2) as [Hs Hcleared].
      split; [by apply settled_at_state|]. split; [done|].
      intros ls' rt' Hexec'. eapply settled_at_state, settled_at_exec; eauto.
    + destruct (armed_fire _ _ _ _ Harm2) as (rt3 & Hfire & Hs).
      exists rt3. split; [done|]. split; [by apply settled_at_state|].
      intros ls' rt' Hexec'. eapply settled_at_state, settled_at_exec; eauto.
Qed.

Lemma rt_wf_controller : rt_wf (new_AbortController 0 empty_runtime).
Proof.
  apply (rt_wf_step (RtNewController 0) empty_runtime); [apply rt_wf_empty|done].
Qed.

Lemma sleep_cancellable_witness :
  rt_wf (new_AbortController 0 empty_runtime) ∧
  (∀ c, Some 0 = Some c →
        is_Some (signals (new_AbortController 0 empty_runtime) !! c)) ∧
  let rt1 := (sleep 10 (Some 0) (new_AbortController 0 empty_runtime)).2 in
  sleep_state 0 rt1 = SleepPending ∧
  sleep_state 0 (abort 0 rt1) = SleepRejected Aborted ∧
  ∃ rt3, fire_timer 0 rt1 = Some rt3 ∧ sleep_state 0 rt3 = SleepResolved.
Proof.
  assert (H2 : ∀ c, Some 0 = Some c →
             is_Some (signals (new_AbortController 0 empty_runtime) !! c)).
  { intros c [= <-]. by eexists. }
  split; [apply rt_wf_controller|]. split; [exact H2|].
  destruct (sleep_cancellable 10 (Some 0) (new_AbortController 0 empty_runtime)
              rt_wf_controller H2) as [_ Hlive].
  destruct (Hlive eq_refl) as [_ Hrun].
  destruct (Hrun [] _ (List.Forall_nil _) eq_refl) as (Hpend & Habort & rt3 & Hfire & Hres & _).
  destruct (Habort 0 eq_refl) as (Hrej & _).
  split; [exact Hpend|]. split; [exact Hrej|].
  exists rt3. split; [exact Hfire|exact Hres].
Defined.

(** * Properties of the job queue *)

Lemma jobId_inj a b : jobId a = jobId b → a = b.
Proof.
  unfold jobId. intros H. by simplify_eq.
Qed.

Lemma StronglySorted_delete {A} (R : relation A) (l : list A) k :
  StronglySorted R l → StronglySorted R (delete k l).
Proof.
  revert k. induction l as [|x l IH]; intros [|k] H; simpl; try done.
  - by apply StronglySorted_inv in H as [? _].
  - apply StronglySorted_inv in H as [H1 H2].
    constructor; [by apply IH|]. by apply Forall_delete.
Qed.

Lemma size_add (x : string) (R : gset string) : size ({[x]} ∪ R) ≤ S (size R).
Proof.
  rewrite size_union_alt, size_singleton.
  assert (size (R ∖ {[x]}) ≤ size R) by (apply subseteq_size; set_solver).
  lia.
Qed.

Section JobQueueProofs.

Context {JobData JobResult : Type}.
Variable jobProcessor : JobData → @Processor JobResult.

Local Abbreviation State := (@State JobData JobResult).
Local Abbreviation Job := (@Job JobData).
Local Abbreviation Event := (@Event JobData JobResult).
Local Abbreviation PromiseState := (@PromiseState JobResult).

Implicit Types (s : State) (job : Job) (q js : list Job).
Implicit Types (R : gset string) (P : gmap nat PromiseState).

(** ** Settling a promise *)

Lemma settle_other r st P r' : r' ≠ r → settle r st P !! r' = P !! r'.
Proof.
  intros Hne. unfold settle. destruct (P !! r) as [[]|]; try done.
  by rewrite lookup_insert_ne.
Qed.

Lemma settle_pending r st P :
  P !! r = Some Pending → settle r st P !! r = Some st.
Proof. intros H. unfold settle. rewrite H. by rewrite lookup_insert_eq. Qed.

Lemma settle_settled r st P st0 :
  P !! r = Some st0 → st0 ≠ Pending → settle r st P = P.
Proof. intros H Hne. unfold settle. rewrite H. by destruct st0. Qed.

(** ** The invariant on its components *)

Lemma ids_distinct n job (l : list Job) :
  Forall (job_ok n) (job :: l) → NoDup (ref <$> job :: l) →
  id job ∉ (list_to_set (id <$> l) : gset string).
Proof.
  intros Hok Hnd Hin. apply Forall_cons in Hok as [[Hid _] Hok].
  rewrite fmap_cons in Hnd. apply NoDup_cons in Hnd as [Hnotin _].
  apply elem_of_list_to_set, list_elem_of_fmap in Hin as (x & Hx & Hin).
  apply Hnotin. apply list_elem_of_fmap. exists x. split; [|done].
  rewrite Forall_forall in Hok. destruct (Hok x Hin) as [Hidx _].
  apply jobId_inj. congruence.
Qed.

Lemma wf_core_ok n q js R P :
  wf_core n q js R P → Forall (job_ok n) (q ++ js).
Proof. intros (H & _). eapply Forall_impl; [done|]. by intros ? [? _]. Qed.

(** Jobs change place: from the queue to the suspended closures. *)
Lemma wf_core_move n q js R P q' js' :
  wf_core n q js R P →
  q ++ js ≡ₚ q' ++ js' →
  StronglySorted lt (ref <$> q') →
  wf_core n q' js' (list_to_set (id <$> js')) P.
Proof.
  intros (Hall & Hnd & _ & _) Hperm Hsort.
  split; [by rewrite <- Hperm|]. split; [by rewrite <- Hperm|]. done.
Qed.

(** A job is settled and leaves. *)
Lemma wf_core_remove n q js R P job q' js' st :
  wf_core n q js R P →
  q ++ js ≡ₚ job :: (q' ++ js') →
  StronglySorted lt (ref <$> q') →
  wf_core n q' js' (list_to_set (id <$> js')) (settle (ref job) st P).
Proof.
  intros (Hall & Hnd & _ & _) Hperm Hsort.
  rewrite Hperm in Hall, Hnd.
  apply Forall_cons in Hall as [_ Hall].
  rewrite fmap_cons in Hnd. apply NoDup_cons in Hnd as [Hnotin Hnd].
  split; [|by split].
  rewrite Forall_forall in Hall |- *. intros x Hx.
  destruct (Hall x Hx) as [Hok Hp]. split; [done|].
  rewrite settle_other; [done|]. intros Heq. apply Hnotin.
  apply list_elem_of_fmap. by exists x.
Qed.

Lemma removed_id n q js R P job q' js' :
  wf_core n q js R P →
  q ++ js ≡ₚ job :: (q' ++ js') →
  id job ∉ (list_to_set (id <$> js') : gset string).
Proof.
  intros Hwf Hperm.
  pose proof (wf_core_ok _ _ _ _ _ Hwf) as Hok.
  destruct Hwf as (_ & Hnd & _). rewrite Hperm in Hok, Hnd.
  intros Hin. eapply (ids_distinct n job (q' ++ js')); [done|done|].
  rewrite fmap_app, list_to_set_app_L. set_solver.
Qed.

(** The head of the queue becomes a suspended closure. *)
Lemma wf_core_launch n job q js R P :
  wf_core n (job :: q) js R P →
  wf_core n q (js ++ [job]) ({[id job]} ∪ R) P.
Proof.
  intros Hwf.
  assert (Hs : StronglySorted lt (ref <$> q)).
  { destruct Hwf as (_ & _ & _ & Hs). rewrite fmap_cons in Hs.
    by apply StronglySorted_inv in Hs as [? _]. }
  pose proof Hwf as (_ & _ & -> & _).
  replace ({[id job]} ∪ list_to_set (id <$> js))
    with (list_to_set (C:=gset string) (id <$> (js ++ [job]))).
  - eapply wf_core_move; [done| |done].
    rewrite (assoc (++)). simpl. by rewrite Permutation_cons_append.
  - rewrite fmap_app, list_to_set_app_L. simpl. set_solver.
Qed.

(** The head of the queue is settled at once, when its processor throws. *)
Lemma wf_core_launch_throw n job q js R P st :
  wf_core n (job :: q) js R P →
  wf_core n q js (({[id job]} ∪ R) ∖ {[id job]}) (settle (ref job) st P).
Proof.
  intros Hwf.
  assert (Hs : StronglySorted lt (ref <$> q)).
  { destruct Hwf as (_ & _ & _ & Hs). rewrite fmap_cons in Hs.
    by apply StronglySorted_inv in Hs as [? _]. }
  pose proof Hwf as (_ & _ & HR & _).
  pose proof (removed_id n (job :: q) js R P job q js Hwf (reflexivity _)) as Hid.
  replace (({[id job]} ∪ R) ∖ {[id job]})
    with (list_to_set (C:=gset string) (id <$> js)) by set_solver.
  by eapply wf_core_remove.
Qed.

(** A suspended closure finishes. *)
Lemma wf_core_finish n q js R P k job st :
  wf_core n q js R P → js !! k = Some job →
  wf_core n q (delete k js) (R ∖ {[id job]}) (settle (ref job) st P).
Proof.
  intros Hwf Hk.
  assert (Hperm : q ++ js ≡ₚ job :: (q ++ delete k js)).
  { rewrite (delete_Permutation js k job Hk) at 1.
    by rewrite Permutation_middle. }
  pose proof Hwf as (_ & _ & HR & Hs).
  pose proof (removed_id _ _ _ _ _ _ _ _ Hwf Hperm) as Hid.
  replace (R ∖ {[id job]})
    with (list_to_set (C:=gset string) (id <$> delete k js)).
  - by eapply wf_core_remove.
  - rewrite HR. rewrite (delete_Permutation js k job Hk) at 2.
    rewrite fmap_cons, list_to_set_cons. set_solver.
Qed.

(** A queued job is settled and taken out of the queue. *)
Lemma wf_core_abort n q js R P k job st :
  wf_core n q js R P → q !! k = Some job →
  wf_core n (delete k q) js R (settle (ref job) st P).
Proof.
  intros Hwf Hk.
  assert (Hperm : q ++ js ≡ₚ job :: (delete k q ++ js)).
  { by rewrite (delete_Permutation q k job Hk) at 1. }
  pose proof Hwf as (_ & _ & HR & Hs).
  rewrite HR. eapply wf_core_remove; [done|done|].
  rewrite list_fmap_delete.
  by apply StronglySorted_delete.
Qed.

(** All queued jobs are settled and the queue is emptied. *)
Lemma wf_core_dispose n st q : ∀ js R P,
  wf_core n q js R P →
  wf_core n [] js R (foldl (λ P job, settle (ref job) st P) P q).
Proof.
  induction q as [|job q IH]; intros js R P Hwf; simpl; [done|].
  apply IH. by apply (wf_core_abort n (job :: q) js R P 0 job).
Qed.

(** A new job is queued. *)
Lemma wf_core_enqueue n q js R P d :
  wf_core n q js R P →
  wf_core (S n) (q ++ [mkJob (jobId (S n)) d (S n)]) js R (<[S n := Pending]> P).
Proof.
  intros (Hall & Hnd & HR & Hs).
  assert (Hfresh : ∀ x, x ∈ q ++ js → ref x ≠ S n).
  { intros x Hx. rewrite Forall_forall in Hall.
    destruct (Hall x Hx) as [[_ ?] _]. lia. }
  split; [|split; [|split; [done|]]].
  - rewrite <- (assoc (++)), Forall_app, Forall_app. simpl.
    rewrite Forall_app in Hall. destruct Hall as [Hq Hjs].
    assert (Hup : ∀ l, (∀ x, x ∈ l → ref x ≠ S n) →
              Forall (λ job, job_ok n job ∧ P !! ref job = Some Pending) l →
              Forall (λ job, job_ok (S n) job ∧
                             <[S n:=Pending]> P !! ref job = Some Pending) l).
    { intros l Hl Hf. rewrite Forall_forall in Hf |- *. intros x Hx.
      destruct (Hf x Hx) as [[Hid Hr] Hp]. split; [split; [done|lia]|].
      rewrite lookup_insert_ne; [done|]. intros Heq. by apply (Hl x Hx). }
    split; [|split].
    + apply Hup; [|done]. intros x Hx. apply Hfresh, elem_of_app. by left.
    + apply Forall_cons. split; [|done]. unfold job_ok. simpl.
      split; [split; [done|lia]|]. by rewrite lookup_insert_eq.
    + apply Hup; [|done]. intros x Hx. apply Hfresh, elem_of_app. by right.
  - rewrite <- (assoc (++)). simpl.
    rewrite <- Permutation_middle. rewrite fmap_cons. simpl.
    apply NoDup_cons. split; [|done].
    intros (x & Hx & Hin)%list_elem_of_fmap. by apply (Hfresh x Hin).
  - rewrite fmap_app. simpl. apply StronglySorted_app_2; [|done|].
    + intros x1 x2 (x & -> & Hx)%list_elem_of_fmap ->%list_elem_of_singleton.
      rewrite Forall_forall in Hall.
      destruct (Hall x) as [[_ ?] _]; [apply elem_of_app; by left|]. lia.
    + repeat constructor.
Qed.

(** ** Signals are never removed *)

Lemma sig_le_refl r : sig_le r r.
Proof. by intros k. Qed.

Lemma sig_le_insert c sg (m : gmap nat AbortSignal) k :
  is_Some (m !! k) → is_Some (<[c := sg]> m !! k).
Proof.
  intros H. destruct (decide (k = c)) as [->|Hne].
  - rewrite lookup_insert_eq. by eexists.
  - by rewrite lookup_insert_ne.
Qed.

Lemma sig_le_abort c r : sig_le r (abort c r).
Proof.
  intros k Hk. unfold abort. destruct (signals r !! c) as [sg|]; [|done].
  destruct (aborted sg); [done|].
  match goal with |- context [foldl _ ?r0 ?ls] =>
    destruct (run_listeners_fields ls r0) as (_ & _ & _ & ->) end.
  simpl. by apply sig_le_insert.
Qed.

Lemma sig_le_sleep ms signal r : sig_le r (sleep ms signal r).2.
Proof.
  intros k Hk. unfold sleep, new_sleep_promise.
  destruct (signal_aborted signal _); simpl.
  - match goal with |- context [settle_sleep ?q ?st ?r0] =>
      by destruct (settle_sleep_fields q st r0) as (_ & _ & _ & _ & ->) end.
  - unfold add_abort_listener. simpl.
    destruct signal as [c|]; [destruct (signals r !! c)|]; simpl; try done.
    by apply sig_le_insert.
Qed.

Lemma sig_le_fire tid r r' : fire_timer tid r = Some r' → sig_le r r'.
Proof.
  unfold fire_timer. destruct (find_timer tid r) as [t|]; [|done].
  intros [= <-] k Hk.
  match goal with |- context [settle_sleep ?q ?st ?r0] =>
    by destruct (settle_sleep_fields q st r0) as (_ & _ & _ & _ & ->) end.
Qed.

(** ** The invariant is kept by every operation *)

Lemma wf_ext s s' :
  wf s →
  jobCounter s' = jobCounter s → queue s' = queue s → tasks s' = tasks s →
  running s' = running s → promises s' = promises s →
  sig_le (rt s) (rt s') →
  wf s'.
Proof.
  intros [Hc Hs] Hn Hq Ht Hr Hp Hle. unfold wf.
  rewrite Hn, Hq, Ht, Hr, Hp. split; [done|]. intros k Hk. by apply Hle, Hs.
Qed.

(** The fields of the state after [finish]. *)
Lemma finish_fields job out s :
  let s' := finish job out s in
  maxConcurrent s' = maxConcurrent s ∧ intervalMs s' = intervalMs s ∧
  queue s' = queue s ∧ running s' = running s ∖ {[id job]} ∧
  listeners s' = listeners s ∧ jobCounter s' = jobCounter s ∧
  processingInterval s' = processingInterval s ∧
  promises s' = settle (ref job) (outcome_state out) (promises s) ∧
  loops s' = loops s ∧ tasks s' = tasks s ∧ rt s' = rt s.
Proof. destruct out; simpl; repeat split; done. Qed.

Lemma finish_emitted job out s :
  emitted (finish job out s) = emitted s ++
    [match out with
     | Returns v => JobComplete (id job) (data job) v
     | Throws t => JobError (id job) (data job) (normalize t)
     end].
Proof. by destruct out. Qed.

Lemma launch_head_fields i job rest s :
  let s' := launch_head jobProcessor i job rest s in
  maxConcurrent s' = maxConcurrent s ∧ intervalMs s' = intervalMs s ∧
  queue s' = rest ∧ listeners s' = listeners s ∧
  jobCounter s' = jobCounter s ∧
  processingInterval s' = processingInterval s ∧
  loops s' = loops s ∧ sig_le (rt s) (rt s') ∧
  emitted s' = emitted s ++ launch_events jobProcessor job ∧
  ((∃ t, jobProcessor (data job) = ProcThrows t ∧
         tasks s' = tasks s ∧ rt s' = rt s ∧
         running s' = ({[id job]} ∪ running s) ∖ {[id job]} ∧
         promises s' = settle (ref job) (Rejected t) (promises s)) ∨
   (∃ ps, (∀ t, jobProcessor (data job) ≠ ProcThrows t) ∧
          tasks s' = tasks s ++ [mkTask job i ps] ∧
          running s' = {[id job]} ∪ running s ∧
          promises s' = promises s)).
Proof.
  unfold launch_head, launch, launch_events.
  destruct (jobProcessor (data job)) as [t|out|ms out|] eqn:Hproc; simpl.
  - repeat split; try done; try apply sig_le_refl.
    + by rewrite <- (assoc (++)).
    + left. by exists t.
  - repeat split; try done; try apply sig_le_refl.
    right. by eexists.
  - destruct (sleep ms (Some (ref job)) (rt s)) as [p r] eqn:Hsl. simpl.
    repeat split; try done.
    + replace r with (sleep ms (Some (ref job)) (rt s)).2 by by rewrite Hsl.
      apply sig_le_sleep.
    + right. by eexists.
  - repeat split; try done; try apply sig_le_refl.
    right. by eexists.
Qed.

Lemma wf_launch_head i job rest s :
  wf s → queue s = job :: rest → wf (launch_head jobProcessor i job rest s).
Proof.
  intros [Hc Hs] Hq.
  destruct (launch_head_fields i job rest s)
    as (_ & _ & Hq' & _ & Hn & _ & _ & Hle & _ & Hcase).
  unfold wf. rewrite Hq', Hn. split; [|intros k Hk; by apply Hle, Hs].
  rewrite Hq in Hc.
  destruct Hcase as [(t & _ & -> & _ & -> & ->)|(ps & _ & -> & -> & ->)].
  - by apply wf_core_launch_throw.
  - rewrite fmap_app. simpl. by apply wf_core_launch.
Qed.

Lemma wf_dispatch i n : ∀ s, wf s → wf (dispatch jobProcessor i n s).
Proof.
  induction n as [|n IH]; intros s Hwf; simpl; [done|].
  destruct (queue s) as [|job rest] eqn:Hq; [done|].
  apply IH. by apply (wf_launch_head i job rest s).
Qed.

Lemma wf_processAvailableJobs i s :
  wf s → wf (processAvailableJobs jobProcessor i s).
Proof.
  intros Hwf. unfold processAvailableJobs. case_decide; [done|].
  by apply wf_dispatch.
Qed.

Lemma wf_startProcessing s : wf s → wf (startProcessing jobProcessor s).
Proof.
  intros Hwf. unfold startProcessing.
  destruct (processingInterval s); [done|].
  apply wf_processAvailableJobs.
  eapply wf_ext; [done|done..|apply sig_le_refl].
Qed.

Lemma wf_new maxConcurrent intervalMs :
  wf (newJobQueue jobProcessor maxConcurrent intervalMs).
Proof.
  apply wf_startProcessing. split; simpl.
  - split; [constructor|]. split; [constructor|]. split; [done|constructor].
  - intros k Hk. lia.
Qed.

Lemma wf_addJob d s : wf s → wf (addJob jobProcessor d s).2.
Proof.
  intros [Hc Hs]. unfold addJob. simpl.
  match goal with |- wf (match _ with None => startProcessing _ ?s1 | _ => _ end) =>
    assert (Hwf1 : wf s1) end.
  { split; simpl.
    - by apply wf_core_enqueue.
    - intros k Hk. destruct (decide (k = S (jobCounter s))) as [->|Hne].
      + rewrite lookup_insert_eq. by eexists.
      + rewrite lookup_insert_ne by done. apply Hs. lia. }
  destruct (processingInterval s); [done|]. by apply wf_startProcessing.
Qed.

Lemma wf_abortJob jid s : wf s → wf (abortJob jid s).2.
Proof.
  intros [Hc Hs]. unfold abortJob.
  destruct (list_find _ (queue s)) as [[k job]|] eqn:Hfind; simpl.
  - apply list_find_Some in Hfind as (Hk & _). split; simpl.
    + by apply wf_core_abort.
    + intros k' Hk'. by apply sig_le_abort, Hs.
  - by case_decide.
Qed.

Lemma dispose_loop_frame {A} (f : State → A) :
  (∀ job s, f (dispose_job s job) = f s) →
  ∀ l s0, f (foldl dispose_job s0 l) = f s0.
Proof.
  intros Hf l. induction l as [|job l IH]; intros s0; simpl; [done|].
  by rewrite IH, Hf.
Qed.

Lemma dispose_loop_promises l : ∀ s0,
  promises (foldl dispose_job s0 l) =
  foldl (λ P job, settle (ref job) (Rejected Disposed) P) (promises s0) l.
Proof. induction l as [|job l IH]; intros s0; simpl; [done|]. by rewrite IH. Qed.

Lemma dispose_loop_rt l : ∀ s0,
  rt (foldl dispose_job s0 l) = foldl (λ r job, abort (ref job) r) (rt s0) l.
Proof. induction l as [|job l IH]; intros s0; simpl; [done|]. by rewrite IH. Qed.

Lemma dispose_fields s :
  let s' := dispose s in
  maxConcurrent s' = maxConcurrent s ∧ intervalMs s' = intervalMs s ∧
  queue s' = [] ∧ running s' = running s ∧
  listeners s' = listeners s ∧ jobCounter s' = jobCounter s ∧
  processingInterval s' = None ∧
  promises s' =
    foldl (λ P job, settle (ref job) (Rejected Disposed) P)
          (promises s) (queue s) ∧
  loops s' = loops s ∧ tasks s' = tasks s ∧
  rt s' = foldl (λ r job, abort (ref job) r) (rt s) (queue s) ∧
  emitted s' = emitted s ∧ delivered s' = delivered s.
Proof.
  unfold dispose. simpl.
  rewrite dispose_loop_promises, dispose_loop_rt.
  rewrite (dispose_loop_frame maxConcurrent), (dispose_loop_frame intervalMs),
    (dispose_loop_frame running), (dispose_loop_frame listeners),
    (dispose_loop_frame jobCounter), (dispose_loop_frame processingInterval),
    (dispose_loop_frame loops), (dispose_loop_frame tasks),
    (dispose_loop_frame emitted), (dispose_loop_frame delivered) by done.
  done.
Qed.

Lemma sig_le_aborts l : ∀ r, sig_le r (foldl (λ r job, abort (ref job) r) r l).
Proof.
  induction l as [|job l IH]; intros r; simpl; [apply sig_le_refl|].
  intros k Hk. by apply IH, sig_le_abort.
Qed.

Lemma wf_dispose s : wf s → wf (dispose s).
Proof.
  intros [Hc Hs].
  destruct (dispose_fields s)
    as (_ & _ & Hq & Hr & _ & Hn & _ & Hp & _ & Ht & Hrt & _).
  unfold wf. rewrite Hq, Hr, Hn, Hp, Ht, Hrt. split.
  - by apply wf_core_dispose.
  - intros k Hk. by apply sig_le_aborts, Hs.
Qed.

Lemma wf_processLoop_sleep i s : wf s → wf (processLoop_sleep i s).
Proof.
  intros Hwf. unfold processLoop_sleep.
  destruct (sleep _ None (rt s)) as [p r] eqn:Hsl.
  eapply wf_ext; [done|done..|]. simpl.
  replace r with (sleep (if decide (0 < intervalMs s)%Z then intervalMs s else 0%Z)
                    None (rt s)).2 by by rewrite Hsl.
  apply sig_le_sleep.
Qed.

Lemma wf_processLoop_after_batch i s : wf s → wf (processLoop_after_batch i s).
Proof.
  intros Hwf. unfold processLoop_after_batch.
  assert (Hemit : wf (emitEvent QueueEmpty s)).
  { eapply wf_ext; [done|done..|apply sig_le_refl]. }
  case_decide; [|by apply wf_processLoop_sleep].
  case_decide; [|by apply wf_processLoop_sleep].
  eapply wf_ext; [exact Hemit|done..|apply sig_le_refl].
Qed.

Lemma wf_processLoop_after_sleep i s : wf s → wf (processLoop_after_sleep jobProcessor i s).
Proof.
  intros Hwf. unfold processLoop_after_sleep.
  eapply wf_ext; [by apply (wf_processAvailableJobs i)|done..|apply sig_le_refl].
Qed.

Lemma wf_processLoop_fatal i s : wf s → wf (processLoop_fatal i s).
Proof.
  intros Hwf. eapply wf_ext; [done|done..|apply sig_le_refl].
Qed.

Lemma find_task_Some r s k t :
  find_task r s = Some (k, t) → tasks s !! k = Some t ∧ ref (task_job t) = r.
Proof.
  unfold find_task. intros H. by apply list_find_Some in H as (? & ? & _).
Qed.

Lemma wf_finish_task k t out s :
  wf s → tasks s !! k = Some t →
  wf (finish (task_job t) out (set_tasks (delete k (tasks s)) s)).
Proof.
  intros [Hc Hs] Hk.
  destruct (finish_fields (task_job t) out (set_tasks (delete k (tasks s)) s))
    as (_ & _ & Hq & Hr & _ & Hn & _ & Hp & _ & Ht & Hrt).
  unfold wf. rewrite Hq, Hr, Hn, Hp, Ht, Hrt. simpl. split; [|done].
  rewrite list_fmap_delete. apply wf_core_finish; [done|].
  by rewrite list_lookup_fmap, Hk.
Qed.

Lemma wf_step l s s' : wf s → step jobProcessor l s = Some s' → wf s'.
Proof.
  intros Hwf Hstep. destruct l as [d|jid| |ev l|ev l|tid|i|r|r out];
    simpl in Hstep.
  - injection Hstep as <-. by apply wf_addJob.
  - injection Hstep as <-. by apply wf_abortJob.
  - injection Hstep as <-. by apply wf_dispose.
  - injection Hstep as <-. eapply wf_ext; [done|done..|apply sig_le_refl].
  - injection Hstep as <-. unfold removeEventListener.
    destruct (list_find _ _) as [[k x]|]; [|done].
    eapply wf_ext; [done|done..|apply sig_le_refl].
  - destruct (fire_timer tid (rt s)) as [r|] eqn:Hfire; [|done].
    injection Hstep as <-.
    eapply wf_ext; [done|done..|]. simpl. by eapply sig_le_fire.
  - destruct (loops s !! i) as [[|p|]|]; try done.
    + case_decide; [|done]. injection Hstep as <-. by apply wf_processLoop_after_batch.
    + destruct (sleep_state p (rt s)); try done; injection Hstep as <-.
      * by apply wf_processLoop_after_sleep.
      * by apply wf_processLoop_fatal.
  - destruct (find_task r s) as [[k t]|] eqn:Hfind; [|done].
    destruct (proc_outcome t s) as [out|]; [|done].
    injection Hstep as <-. apply find_task_Some in Hfind as [Hk _].
    by apply wf_finish_task.
  - destruct (find_task r s) as [[k t]|] eqn:Hfind; [|done].
    destruct (task_proc t) eqn:Hproc; try done.
    injection Hstep as <-. apply find_task_Some in Hfind as [Hk _].
    destruct Hwf as [Hc Hs]. split; simpl; [|done].
    rewrite list_fmap_insert. simpl.
    rewrite list_insert_id; [done|]. by rewrite list_lookup_fmap, Hk.
Qed.

Lemma wf_reachable s : reachable jobProcessor s → wf s.
Proof.
  induction 1 as [mc iv|s l s' _ IH Hstep]; [apply wf_new|].
  by eapply wf_step.
Qed.

Lemma reachable_exec ls : ∀ s s',
  reachable jobProcessor s → exec jobProcessor ls s = Some s' →
  reachable jobProcessor s'.
Proof.
  induction ls as [|l ls IH]; intros s s' Hr Hex; simpl in Hex.
  - by injection Hex as <-.
  - destruct (step jobProcessor l s) as [s1|] eqn:Hstep; [|done].
    apply (IH s1); [|done]. by eapply reachable_step.
Qed.

Lemma reachable_script ls : ∀ s,
  reachable jobProcessor s → reachable jobProcessor (script jobProcessor ls s).
Proof.
  induction ls as [|l ls IH]; intros s Hr; simpl; [done|].
  apply IH. destruct (step jobProcessor l s) as [s1|] eqn:Hstep; simpl; [|done].
  by eapply reachable_step.
Qed.

(** ** What a dispatch does *)

Lemma dispatch_spec i n : ∀ s,
  let s' := dispatch jobProcessor i n s in
  maxConcurrent s' = maxConcurrent s ∧ intervalMs s' = intervalMs s ∧
  listeners s' = listeners s ∧ jobCounter s' = jobCounter s ∧
  processingInterval s' = processingInterval s ∧ loops s' = loops s ∧
  queue s' = drop n (queue s) ∧
  emitted s' = emitted s ++ flat_map (launch_events jobProcessor) (take n (queue s)) ∧
  (∃ nt, tasks s' = tasks s ++ nt ∧
         Forall (λ t, task_loop t = i ∧ task_job t ∈ take n (queue s)) nt ∧
         ∀ job, job ∈ take n (queue s) →
                (∀ t, jobProcessor (data job) ≠ ProcThrows t) →
                ∃ t, t ∈ nt ∧ task_job t = job) ∧
  size (running s') ≤ size (running s) + n.
Proof.
  induction n as [|n IH]; intros s; simpl.
  - repeat split; try done; [by rewrite (right_id [] (++))| |lia].
    exists []. rewrite (right_id [] (++)). split; [done|]. split; [done|].
    intros job Hj. by apply elem_of_nil in Hj.
  - destruct (queue s) as [|job rest] eqn:Hq; simpl.
    + repeat split; try done; [by rewrite (right_id [] (++))| |lia].
      exists []. rewrite (right_id [] (++)). split; [done|]. split; [done|].
      intros job Hj. by apply elem_of_nil in Hj.
    + destruct (launch_head_fields i job rest s)
        as (Hmc & Hiv & Hq1 & Hli & Hjc & Hpi & Hlo & _ & Hem & Hcase).
      destruct (IH (launch_head jobProcessor i job rest s))
        as (-> & -> & -> & -> & -> & -> & -> & -> & (nt & -> & Hnt & Hall) & Hsz).
      rewrite Hq1 in Hnt, Hall |- *. rewrite Hmc, Hiv, Hli, Hjc, Hpi, Hlo, Hem.
      repeat split; try done.
      * by rewrite <- (assoc (++)).
      * destruct Hcase as [(t & Hthrow & -> & _)|(ps & Hno & -> & _)].
        -- exists nt. split; [done|]. split.
           ++ eapply Forall_impl; [done|]. intros t' [? ?]. split; [done|].
              by apply list_elem_of_further.
           ++ intros job' [->|Hj]%elem_of_cons Hnothrow; [|by apply Hall].
              by destruct (Hnothrow t Hthrow).
        -- exists (mkTask job i ps :: nt). split; [by rewrite <- (assoc (++))|].
           split.
           ++ apply Forall_cons. split; [split; [done|by left]|].
              eapply Forall_impl; [done|]. intros t' [? ?]. split; [done|].
              by apply list_elem_of_further.
           ++ intros job' [->|Hj]%elem_of_cons Hnothrow.
              ** eexists. split; [by left|done].
              ** destruct (Hall job' Hj Hnothrow) as (t' & Ht' & Heq).
                 exists t'. split; [by apply list_elem_of_further|done].
      * assert (size (running (launch_head jobProcessor i job rest s)) ≤ S (size (running s))).
        { destruct Hcase as [(t & _ & _ & _ & -> & _)|(ps & _ & _ & -> & _)].
          - etrans; [|apply (size_add (id job))]. apply subseteq_size. set_solver.
          - apply size_add. }
        lia.
Qed.

Lemma processAvailableJobs_dispatch i s :
  processAvailableJobs jobProcessor i s =
  dispatch jobProcessor i (Z.to_nat (jobsToProcess s)) s.
Proof.
  unfold processAvailableJobs. case_decide as H; [|done].
  by replace (Z.to_nat (jobsToProcess s)) with 0 by lia.
Qed.

(** [shift()] never meets an empty queue: the number of turns of the [for]
    loop is at most the length of the queue. *)
Lemma dispatch_takes_from_queue s :
  Z.to_nat (jobsToProcess s) ≤ length (queue s).
Proof. unfold jobsToProcess. lia. Qed.

(** ** What one step can do to the queue, the trace and the running set *)

Lemma op_facts_frame s s' :
  maxConcurrent s' = maxConcurrent s → jobCounter s' = jobCounter s →
  queue s' = queue s →
  emitted s' = emitted s → running s' = running s →
  op_facts None s s'.
Proof.
  intros Hmc Hjc Hq He Hr. unfold op_facts. rewrite Hmc, Hjc, Hq, He, Hr.
  split; [done|]. split; [done|]. split; [by left|]. split; [|done].
  exists []. split; [by rewrite (right_id [] (++))|].
  intros jid d H. by apply elem_of_nil in H.
Qed.

Lemma op_facts_trans a s s1 s2 :
  op_facts a s s1 → op_facts None s1 s2 → op_facts a s s2.
Proof.
  intros (Hmc1 & Hjc1 & Hq1 & (new1 & He1 & Hn1) & Hc1)
         (Hmc2 & Hjc2 & Hq2 & (new2 & He2 & Hn2) & Hc2).
  split; [congruence|]. split; [lia|]. split; [|split].
  - intros job Hj. destruct (Hq2 job Hj) as [Hj1|?]; [|done]. by apply Hq1.
  - exists (new1 ++ new2). split; [by rewrite He2, He1, (assoc (++))|].
    intros jid d [H|H]%elem_of_app; [by eapply Hn1|].
    destruct (Hn2 jid d H) as [(job & Hj & Hid)|?]; [|done].
    destruct (Hq1 job Hj) as [?|Ha]; [left; by exists job|].
    right. by rewrite <- Hid.
  - intros H. by apply Hc2, Hc1.
Qed.

Lemma launch_events_start jid d (l : list Job) :
  JobStart jid d ∈ flat_map (launch_events jobProcessor) l →
  ∃ job, job ∈ l ∧ id job = jid.
Proof.
  intros H. apply list_elem_of_In, in_flat_map in H as (job & Hj & H).
  exists job. split; [by apply list_elem_of_In|].
  apply list_elem_of_In in H. unfold launch_events in H.
  apply elem_of_cons in H as [[= -> _]|H]; [done|].
  destruct (jobProcessor (data job)); try by apply elem_of_nil in H.
  by apply list_elem_of_singleton in H.
Qed.

Lemma op_facts_processAvailableJobs i s :
  op_facts None s (processAvailableJobs jobProcessor i s).
Proof.
  rewrite processAvailableJobs_dispatch.
  destruct (dispatch_spec i (Z.to_nat (jobsToProcess s)) s)
    as (Hmc & _ & _ & Hjc & _ & _ & Hq & He & _ & Hsz).
  split; [done|]. split; [lia|]. split; [|split].
  - intros job Hj. left. rewrite Hq in Hj.
    eapply elem_of_sublist; [done|apply sublist_drop].
  - eexists. split; [done|]. intros jid d H.
    apply launch_events_start in H as (job & Hj & Hid). left.
    exists job. split; [|done].
    eapply elem_of_sublist; [done|apply sublist_take].
  - intros Hcap. rewrite Hmc. unfold jobsToProcess in *. lia.
Qed.

Lemma op_facts_startProcessing s :
  op_facts None s (startProcessing jobProcessor s).
Proof.
  unfold startProcessing.
  destruct (processingInterval s); [by apply op_facts_frame|].
  eapply op_facts_trans; [|apply op_facts_processAvailableJobs].
  by apply op_facts_frame.
Qed.

Lemma op_facts_addJob d s :
  op_facts (Some (jobId (S (jobCounter s)))) s (addJob jobProcessor d s).2.
Proof.
  unfold addJob. simpl.
  match goal with |- op_facts _ _ (match _ with None => startProcessing _ ?s1 | _ => _ end) =>
    assert (H1 : op_facts (Some (jobId (S (jobCounter s)))) s s1) end.
  { split; [done|]. simpl. split; [lia|]. split; [|split; [|done]].
    - intros job [Hj| ->%list_elem_of_singleton]%elem_of_app; [by left|by right].
    - exists []. split; [by rewrite (right_id [] (++))|].
      intros jid d' H. by apply elem_of_nil in H. }
  destruct (processingInterval s); [done|].
  eapply op_facts_trans; [done|apply op_facts_startProcessing].
Qed.

Lemma op_facts_shrink s s' :
  maxConcurrent s' = maxConcurrent s → jobCounter s' = jobCounter s →
  queue s' `sublist_of` queue s →
  emitted s' = emitted s → running s' = running s →
  op_facts None s s'.
Proof.
  intros Hmc Hjc Hq He Hr. unfold op_facts. rewrite Hmc, Hjc, He, Hr.
  split; [done|]. split; [done|].
  split; [intros job Hj; left; by eapply elem_of_sublist|].
  split; [|done].
  exists []. split; [by rewrite (right_id [] (++))|].
  intros jid d H. by apply elem_of_nil in H.
Qed.

Lemma op_facts_step l s s' :
  step jobProcessor l s = Some s' →
  op_facts (match l with
            | CallAddJob _ => Some (jobId (S (jobCounter s)))
            | _ => None
            end) s s'.
Proof.
  intros Hstep. destruct l as [d|jid| |ev l|ev l|tid|i|r|r out];
    simpl in Hstep.
  - injection Hstep as <-. apply op_facts_addJob.
  - injection Hstep as <-. unfold abortJob.
    destruct (list_find _ (queue s)) as [[k job]|]; simpl.
    + apply op_facts_shrink; try done. apply sublist_delete.
    + case_decide; by apply op_facts_frame.
  - injection Hstep as <-.
    destruct (dispose_fields s)
      as (Hmc & _ & Hq & Hr & _ & Hjc & _ & _ & _ & _ & _ & He & _).
    apply op_facts_shrink; try done. rewrite Hq. apply sublist_nil_l.
  - injection Hstep as <-. by apply op_facts_frame.
  - injection Hstep as <-. unfold removeEventListener.
    destruct (list_find _ _) as [[k x]|]; by apply op_facts_frame.
  - destruct (fire_timer tid (rt s)) as [r|]; [|done].
    injection Hstep as <-. by apply op_facts_frame.
  - destruct (loops s !! i) as [[|p|]|]; try done.
    + case_decide; [|done]. injection Hstep as <-. unfold processLoop_after_batch.
      assert (Hgo : ∀ s0, op_facts None s0 (processLoop_sleep i s0)).
      { intros s0. unfold processLoop_sleep. destruct (sleep _ None (rt s0)).
        by apply op_facts_frame. }
      case_decide as Hempty; [|apply Hgo].
      assert (Hem : op_facts None s (emitEvent QueueEmpty s)).
      { split; [done|]. split; [done|]. split; [by left|]. split; [|done].
        eexists. split; [done|]. by intros jid d' [=]%list_elem_of_singleton. }
      case_decide.
      * eapply op_facts_trans; [exact Hem|]. by apply op_facts_frame.
      * eapply op_facts_trans; [exact Hem|]. apply Hgo.
    + destruct (sleep_state p (rt s)); try done; injection Hstep as <-.
      * unfold processLoop_after_sleep.
        eapply op_facts_trans; [apply (op_facts_processAvailableJobs i)|].
        by apply op_facts_frame.
      * split; [done|]. split; [done|]. split; [by left|]. split; [|done].
        eexists. split; [done|]. by intros jid d' [=]%list_elem_of_singleton.
  - destruct (find_task r s) as [[k t]|] eqn:Hfind; [|done].
    destruct (proc_outcome t s) as [out|]; [|done].
    injection Hstep as <-.
    destruct (finish_fields (task_job t) out (set_tasks (delete k (tasks s)) s))
      as (Hmc & _ & Hq & Hr & _ & Hjc & _).
    split; [done|]. rewrite Hq, Hr, Hmc, Hjc, finish_emitted. simpl.
    split; [done|]. split; [by left|]. split.
    + eexists. split; [done|].
      intros jid d' H%list_elem_of_singleton. by destruct out.
    + intros Hcap.
      assert (size (running s ∖ {[id (task_job t)]}) ≤ size (running s))
        by (apply subseteq_size; set_solver).
      lia.
  - destruct (find_task r s) as [[k t]|] eqn:Hfind; [|done].
    destruct (task_proc t); try done.
    injection Hstep as <-. by apply op_facts_frame.
Qed.

(** ** The concurrency limit *)


(** ** Cancelling *)

Lemma wf_same_ref s (x y : Job) :
  wf s → x ∈ queue s ++ (task_job <$> tasks s) →
  y ∈ queue s ++ (task_job <$> tasks s) → id x = id y → ref x = ref y.
Proof.
  intros [Hc _] Hx Hy Hid. apply wf_core_ok in Hc.
  rewrite Forall_forall in Hc.
  destruct (Hc x Hx) as [Hix _]. destruct (Hc y Hy) as [Hiy _].
  apply jobId_inj. congruence.
Qed.

Lemma wf_queue_not_running s (x : Job) :
  wf s → x ∈ queue s → id x ∉ running s.
Proof.
  intros Hwf Hx Hin. pose proof Hwf as [(_ & Hnd & HR & _) _].
  rewrite HR in Hin.
  apply elem_of_list_to_set, list_elem_of_fmap in Hin as (y & Hid & Hy).
  assert (ref x = ref y) as Href.
  { eapply wf_same_ref; [done| | |done]; apply elem_of_app; eauto. }
  rewrite fmap_app in Hnd. apply NoDup_app in Hnd as (_ & Hdisj & _).
  apply (Hdisj (ref x)).
  - apply list_elem_of_fmap. by exists x.
  - rewrite Href. apply list_elem_of_fmap. by exists y.
Qed.

Lemma wf_queue_unique s k1 k2 (x y : Job) :
  wf s → queue s !! k1 = Some x → queue s !! k2 = Some y → id x = id y →
  k1 = k2 ∧ x = y.
Proof.
  intros Hwf H1 H2 Hid.
  assert (ref x = ref y) as Href.
  { eapply wf_same_ref; [done| | |done]; apply elem_of_app; left;
      by eapply list_elem_of_lookup_2. }
  destruct Hwf as [(_ & Hnd & _) _].
  rewrite fmap_app in Hnd. apply NoDup_app in Hnd as (Hnd & _).
  assert (k1 = k2) as ->.
  { eapply (NoDup_lookup _ k1 k2 (ref x)); [done| |];
      rewrite list_lookup_fmap; [by rewrite H1|by rewrite H2, Href]. }
  split; [done|congruence].
Qed.

(** C1 (what the code does): for a job in the running set, abortJob does
    not find the job record (the job left [queue] when it was dispatched
    and [running] holds ids only), so it returns false and changes
    nothing: the job's controller is not aborted. *)
Theorem abortJob_running_not_found s jid :
  reachable jobProcessor s → jid ∈ running s →
  abortJob jid s = (false, s).
Proof.
  intros Hr Hin. apply wf_reachable in Hr. unfold abortJob.
  destruct (list_find _ (queue s)) as [[k job]|] eqn:Hfind.
  - apply list_find_Some in Hfind as (Hk & Hid & _).
    destruct (wf_queue_not_running s job Hr); [by eapply list_elem_of_lookup_2|].
    by rewrite Hid.
  - by case_decide.
Qed.

Lemma never_again_step jid l s s' :
  never_again jid s → step jobProcessor l s = Some s' →
  never_again jid s' ∧
  ∃ new, emitted s' = emitted s ++ new ∧ ∀ d, JobStart jid d ∉ new.
Proof.
  intros [Hq (k & -> & Hk)] Hstep.
  destruct (op_facts_step l s s' Hstep) as (_ & Hjc & Hq' & (new & He & Hn) & _).
  assert (Hfresh : ∀ a, (match l with
                         | CallAddJob _ => Some (jobId (S (jobCounter s)))
                         | _ => None
                         end) = Some a → a ≠ jobId k).
  { intros a Ha ->. destruct l; try done. apply (inj Some) in Ha.
    apply jobId_inj in Ha. lia. }
  split; [split|].
  - intros job Hj Hid. destruct (Hq' job Hj) as [Hold|Hadd].
    + by apply (Hq job).
    + symmetry in Hadd. by apply Hfresh in Hadd.
  - exists k. split; [done|lia].
  - exists new. split; [done|]. intros d Hd.
    destruct (Hn _ _ Hd) as [(job & Hj & Hid)|Hadd].
    + by apply (Hq job).
    + symmetry in Hadd. by apply Hfresh in Hadd.
Qed.

Lemma never_again_exec jid ls : ∀ s s',
  never_again jid s → exec jobProcessor ls s = Some s' →
  ∃ new, emitted s' = emitted s ++ new ∧ ∀ d, JobStart jid d ∉ new.
Proof.
  induction ls as [|l ls IH]; intros s s' Hna Hex; simpl in Hex.
  - injection Hex as <-. exists []. split; [by rewrite (right_id [] (++))|].
    intros d H. by apply elem_of_nil in H.
  - destruct (step jobProcessor l s) as [s1|] eqn:Hstep; [|done].
    destruct (never_again_step jid l s s1 Hna Hstep) as (Hna1 & new1 & He1 & Hn1).
    destruct (IH s1 s' Hna1 Hex) as (new2 & He2 & Hn2).
    exists (new1 ++ new2). split; [by rewrite He2, He1, (assoc (++))|].
    intros d [H|H]%elem_of_app; [by eapply Hn1|by eapply Hn2].
Qed.

(** C2: for a job still in the queue, abortJob returns true, takes the job
    (and only it) out of the queue, and rejects its promise with the error
    "Job <id> aborted"; whatever happens afterwards, no jobStart event is
    emitted for that job. *)
Theorem abortJob_queued s job :
  reachable jobProcessor s → job ∈ queue s →
  let s' := (abortJob (id job) s).2 in
  (abortJob (id job) s).1 = true ∧
  (∃ k, queue s !! k = Some job ∧ queue s' = delete k (queue s)) ∧
  (∀ job', job' ∈ queue s' → id job' ≠ id job) ∧
  promises s' !! ref job = Some (Rejected (JobAborted (id job))) ∧
  ∀ ls s'', exec jobProcessor ls s' = Some s'' →
    ∃ new, emitted s'' = emitted s' ++ new ∧
           ∀ d, JobStart (id job) d ∉ new.
Proof.
  intros Hr Hin. pose proof (wf_reachable s Hr) as Hwf.
  apply list_elem_of_lookup in Hin as [k0 Hk0].
  unfold abortJob.
  destruct (list_find _ (queue s)) as [[k job']|] eqn:Hfind.
  - apply list_find_Some in Hfind as (Hk & Hid & _).
    destruct (wf_queue_unique s k k0 job' job Hwf Hk Hk0 Hid) as [-> ->].
    simpl.
    assert (Hgone : ∀ job', job' ∈ delete k0 (queue s) → id job' ≠ id job).
    { intros job' [k1 Hk1]%list_elem_of_lookup Hid'.
      rewrite list_lookup_delete in Hk1.
      destruct (wf_queue_unique s _ k0 job' job Hwf Hk1 Hk0 Hid') as [Heq _].
      case_decide; lia. }
    split; [done|]. split; [exists k0; by split|]. split; [done|]. split.
    + apply settle_pending. destruct Hwf as [(Hall & _) _].
      rewrite Forall_forall in Hall. apply Hall, elem_of_app. left.
      by eapply list_elem_of_lookup_2.
    + intros ls s'' Hex.
      apply (never_again_exec (id job) ls _ s'') in Hex; [exact Hex|].
      split; [exact Hgone|]. simpl.
      destruct Hwf as [Hc _]. apply wf_core_ok in Hc.
      rewrite Forall_forall in Hc.
      destruct (Hc job) as [Hidj Hrj];
        [apply elem_of_app; left; by eapply list_elem_of_lookup_2|].
      exists (ref job). split; [done|lia].
  - apply list_find_None in Hfind. rewrite Forall_forall in Hfind.
    destruct (Hfind job); [by eapply list_elem_of_lookup_2|done].
Qed.

(** C9: once the promise of a job is settled, [abort()] on it (abortJob
    with the job's id) returns false and leaves the whole state as it is. *)
Theorem abort_after_settled s k st :
  reachable jobProcessor s →
  promises s !! k = Some st → st ≠ Pending →
  abortJob (jobId k) s = (false, s) ∧
  ∀ d, JobPromise_abort (mkJob (jobId k) d k) s = s.
Proof.
  intros Hr Hk Hst. pose proof (wf_reachable s Hr) as Hwf.
  assert (Hnone : list_find (λ job : Job, id job = jobId k) (queue s) = None).
  { apply list_find_None. rewrite Forall_forall. intros job Hj Hid.
    destruct Hwf as [(Hall & _) _]. rewrite Forall_forall in Hall.
    destruct (Hall job) as [[Hidj _] Hp]; [apply elem_of_app; by left|].
    rewrite Hidj in Hid. apply jobId_inj in Hid. congruence. }
  assert (Habort : abortJob (jobId k) s = (false, s)).
  { unfold abortJob. rewrite Hnone. by case_decide. }
  split; [done|]. intros d. unfold JobPromise_abort. simpl. by rewrite Habort.
Qed.

(** ** Dispatching a batch *)

Lemma filter_launch_events (l : list Job) :
  filter (λ ev, is_JobStart ev) (flat_map (launch_events jobProcessor) l)
  = start_event <$> l.
Proof.
  induction l as [|job l IH]; [done|].
  cbn [flat_map]. unfold launch_events at 1.
  destruct (jobProcessor (data job)); simpl;
    rewrite filter_cons_True by done;
    [rewrite filter_cons_False by (by intros [])|..];
    by rewrite IH.
Qed.

Lemma launch_events_no_complete (l : list Job) jid d r :
  JobComplete jid d r ∉ flat_map (launch_events jobProcessor) l.
Proof.
  intros H. apply list_elem_of_In, in_flat_map in H as (job & _ & H).
  apply list_elem_of_In in H. unfold launch_events in H.
  apply elem_of_cons in H as [?|H]; [done|].
  destruct (jobProcessor (data job)); try by apply elem_of_nil in H.
  by apply list_elem_of_singleton in H.
Qed.

(** C6: the batch that processAvailableJobs dispatches is the first
    [jobsToProcess] jobs of the queue, which are in submission order; their
    jobStart events are emitted in that order within the synchronous
    dispatch itself, which emits no jobComplete; when it ends, the closure
    of every job whose processor call returned a promise is suspended at
    its [await], in the batch of this loop, its promise still pending. *)
Theorem jobStart_in_submission_order i s :
  reachable jobProcessor s →
  let n := Z.to_nat (jobsToProcess s) in
  let batch := take n (queue s) in
  let s' := processAvailableJobs jobProcessor i s in
  (∃ new, emitted s' = emitted s ++ new ∧
          filter (λ ev, is_JobStart ev) new = start_event <$> batch ∧
          ∀ jid d r, JobComplete jid d r ∉ new) ∧
  StronglySorted lt (ref <$> batch) ∧
  Forall (λ job, id job = jobId (ref job)) batch ∧
  queue s' = drop n (queue s) ∧
  ∀ job, job ∈ batch → (∀ t, jobProcessor (data job) ≠ ProcThrows t) →
    (∃ t, t ∈ tasks s' ∧ task_job t = job ∧ task_loop t = i) ∧
    promises s' !! ref job = Some Pending.
Proof.
  intros Hr n batch s'. pose proof (wf_reachable s Hr) as Hwf.
  pose proof (wf_processAvailableJobs i s Hwf) as Hwf'.
  subst s'. rewrite processAvailableJobs_dispatch in *. fold n in Hwf' |- *.
  destruct (dispatch_spec i n s)
    as (_ & _ & _ & _ & _ & _ & Hq & He & (nt & Ht & Hnt & Hall) & _).
  fold batch in He, Hnt, Hall.
  split; [|split; [|split; [|split; [done|]]]].
  - eexists. split; [done|]. split; [apply filter_launch_events|].
    intros jid d r. apply launch_events_no_complete.
  - destruct Hwf as [(_ & _ & _ & Hs) _]. subst batch.
    rewrite fmap_take. rewrite <- (take_drop n (ref <$> queue s)) in Hs.
    by apply StronglySorted_app_1_l in Hs.
  - destruct Hwf as [Hc _]. apply wf_core_ok in Hc.
    rewrite Forall_forall in Hc |- *. intros job Hj.
    destruct (Hc job) as [? _]; [|done]. apply elem_of_app. left.
    eapply elem_of_sublist; [done|apply sublist_take].
  - intros job Hj Hnothrow.
    destruct (Hall job Hj Hnothrow) as (t & Hin & Hjob).
    assert (Hin' : t ∈ tasks (dispatch jobProcessor i n s)).
    { rewrite Ht. apply elem_of_app. by right. }
    split.
    + exists t. split; [done|]. split; [done|].
      rewrite Forall_forall in Hnt. by destruct (Hnt t Hin).
    + destruct Hwf' as [(Hpend & _) _]. rewrite Forall_forall in Hpend.
      destruct (Hpend job) as [_ ?]; [|done]. apply elem_of_app. right.
      apply list_elem_of_fmap. by exists t.
Qed.

(** ** The barrier of a batch *)



(** ** A closure that finishes *)




(** ** dispose *)








(** ** Construction *)

Lemma processAvailableJobs_empty i s :
  queue s = [] → processAvailableJobs jobProcessor i s = s.
Proof.
  intros Hq. unfold processAvailableJobs, jobsToProcess. rewrite Hq.
  case_decide; [done|]. simpl in *. lia.
Qed.

(** C10: the constructor starts a processLoop, which is left suspended at
    its first [await] and has emitted nothing when the constructor returns;
    a listener added right after the construction is registered when that
    loop is resumed (the only continuation that is ready), and the loop,
    finding nothing queued and nothing running, emits queueEmpty to that
    listener and returns, clearing the processing flag. *)
Theorem initial_queueEmpty maxConcurrent intervalMs l :
  let s0 := newJobQueue jobProcessor maxConcurrent intervalMs in
  emitted s0 = [] ∧ delivered s0 = [] ∧ loops s0 = [AwaitBatch] ∧
  processingInterval s0 = Some 1 ∧ queue s0 = [] ∧ jobCounter s0 = 0 ∧
  let s1 := addEventListener queueEmpty l s0 in
  next_label s1 = Some (ResumeLoop 0) ∧
  ∃ s2, step jobProcessor (ResumeLoop 0) s1 = Some s2 ∧
        emitted s2 = [QueueEmpty] ∧ delivered s2 = [(l, QueueEmpty)] ∧
        loops s2 = [Returned] ∧ processingInterval s2 = None.
Proof.
  unfold newJobQueue, startProcessing. simpl.
  rewrite processAvailableJobs_empty by reflexivity. simpl.
  repeat (split; [done|]). eexists. split; [done|]. done.
Qed.

End JobQueueProofs.

(** ** Concrete runs *)

Lemma one_running_reachable : reachable timed_processor one_running_one_queued.
Proof. apply reachable_script, reachable_new. Qed.

Lemma abortJob_running_not_found_witness :
  reachable timed_processor one_running_one_queued ∧
  "job-1" ∈ running one_running_one_queued ∧
  abortJob "job-1" one_running_one_queued = (false, one_running_one_queued) ∧
  signal_aborted (Some 1) (rt one_running_one_queued) = false.
Proof.
  assert (Hin : "job-1" ∈ running one_running_one_queued).
  { apply (bool_decide_unpack ("job-1" ∈ running one_running_one_queued)).
    vm_compute. exact I. }
  split; [apply one_running_reachable|]. split; [exact Hin|].
  split; [|vm_compute; reflexivity].
  exact (abortJob_running_not_found timed_processor _ _ one_running_reachable Hin).
Defined.

Lemma abortJob_queued_witness :
  reachable timed_processor one_running_one_queued ∧
  mkJob "job-2" 1 2 ∈ queue one_running_one_queued ∧
  (abortJob "job-2" one_running_one_queued).1 = true ∧
  queue (abortJob "job-2" one_running_one_queued).2 = [] ∧
  promises (abortJob "job-2" one_running_one_queued).2 !! 2 =
    Some (Rejected (JobAborted "job-2")).
Proof.
  assert (Hin : mkJob "job-2" 1 2 ∈ queue one_running_one_queued).
  { vm_compute. left. }
  split; [apply one_running_reachable|]. split; [exact Hin|].
  destruct (abortJob_queued timed_processor _ _ one_running_reachable Hin)
    as (Htrue & _ & _ & Hrej & _).
  split; [exact Htrue|]. split; [vm_compute; reflexivity|exact Hrej].
Defined.

Lemma three_jobs_reachable n :
  reachable timed_processor (run timed_processor n three_jobs).
Proof.
  assert (H : ∀ s, reachable timed_processor s →
            reachable timed_processor (run timed_processor n s)).
  { induction n as [|n IH]; intros s Hs; simpl; [done|].
    destruct (next_label s) as [l|]; [|done].
    destruct (step timed_processor l s) as [s'|] eqn:Hstep; [|done].
    apply IH. by eapply reachable_step. }
  apply H, reachable_script, reachable_new.
Qed.


Lemma abort_after_settled_witness :
  reachable timed_processor (run timed_processor 13 three_jobs) ∧
  promises (run timed_processor 13 three_jobs) !! 1 = Some (Fulfilled 3) ∧
  Fulfilled 3 ≠ Pending ∧
  abortJob (jobId 1) (run timed_processor 13 three_jobs)
    = (false, run timed_processor 13 three_jobs).
Proof.
  assert (Hp : promises (run timed_processor 13 three_jobs) !! 1
               = Some (Fulfilled 3)) by (vm_compute; reflexivity).
  assert (Hne : @Fulfilled nat 3 ≠ Pending) by discriminate.
  split; [apply three_jobs_reachable|]. split; [exact Hp|]. split; [exact Hne|].
  exact (proj1 (abort_after_settled timed_processor _ 1 _
                  (three_jobs_reachable 13) Hp Hne)).
Defined.

Lemma jobStart_in_submission_order_witness :
  reachable timed_processor (run timed_processor 2 three_jobs) ∧
  ∃ new,
    emitted (processAvailableJobs timed_processor 0
               (run timed_processor 2 three_jobs))
      = emitted (run timed_processor 2 three_jobs) ++ new ∧
    filter (λ ev, is_JobStart ev) new = [JobStart "job-1" 3; JobStart "job-2" 1].
Proof.
  split; [apply three_jobs_reachable|].
  destruct (jobStart_in_submission_order timed_processor 0 _
              (three_jobs_reachable 2)) as ((new & He & Hf & _) & _).
  exists new. split; [exact He|]. rewrite Hf. vm_compute. reflexivity.
Defined.







